(** * Kernel memory regions: region records, the region tree and the region
      allocator of [core/hle/kernel/k_memory_region.h].

    The header is embedded shallowly.  Unsigned machine integers are [Z]
    with the wrap-around written out where the code computes ([u64]); a
    failed [ASSERT] is the outcome [Fatal]; pointers into the tree are the
    region values they point to, a null pointer is [None]. *)

From stdpp Require Import base numbers list sorting.

Local Open Scope Z_scope.

(** ** Machine integers and assertions *)

Definition u64_max : Z := 2 ^ 64 - 1.

Definition u64 (z : Z) : Z := z mod 2 ^ 64.

Definition is_u64 (z : Z) : Prop := 0 <= z <= u64_max.

(** Outcome of a call that may trip an [ASSERT]. *)
Inductive Result (A : Type) : Type :=
  | Ok (a : A)
  | Fatal.

Arguments Ok {A} a.
Arguments Fatal {A}.

Global Instance Result_ret : MRet Result := fun A a => Ok a.

Global Instance Result_bind : MBind Result := fun A B f m =>
  match m with
  | Ok a => f a
  | Fatal => Fatal
  end.

(** Modelled from the spec: [ASSERT] of [common/assert.h], which is not part
    of the sources at hand; a failed assertion is a fatal,
    process-terminating condition. *)
Definition ASSERT (cond : bool) : Result unit :=
  if cond then Ok tt else Fatal.

(** ** KMemoryRegion *)

Record KMemoryRegion : Type := mkKMemoryRegion {
  address : Z;
  last_address : Z;
  pair_address : Z;
  attributes : Z;
  type_id : Z
}.

(** [KMemoryRegion() = default]: every member is value-initialised. *)
Definition KMemoryRegion0 : KMemoryRegion := mkKMemoryRegion 0 0 0 0 0.

(** [KMemoryRegion(address_, last_address_)]. *)
Definition KMemoryRegion2 (address_ last_address_ : Z) : KMemoryRegion :=
  mkKMemoryRegion address_ last_address_ 0 0 0.

(** [KMemoryRegion(address_, last_address_, pair_address_, attributes_, type_id_)]. *)
Definition KMemoryRegion5 (address_ last_address_ pair_address_ attributes_ type_id_ : Z) : KMemoryRegion :=
  mkKMemoryRegion address_ last_address_ pair_address_ attributes_ type_id_.

(** [KMemoryRegion(address_, last_address_, attributes_, type_id_)]. *)
Definition KMemoryRegion4 (address_ last_address_ attributes_ type_id_ : Z) : KMemoryRegion :=
  KMemoryRegion5 address_ last_address_ u64_max attributes_ type_id_.

Definition GetAddress (r : KMemoryRegion) : Z := address r.
Definition GetPairAddress (r : KMemoryRegion) : Z := pair_address r.
Definition GetLastAddress (r : KMemoryRegion) : Z := last_address r.
Definition GetEndAddress (r : KMemoryRegion) : Z := u64 (GetLastAddress r + 1).
Definition GetSize (r : KMemoryRegion) : Z := u64 (GetEndAddress r - GetAddress r).
Definition GetAttributes (r : KMemoryRegion) : Z := attributes r.
Definition GetType (r : KMemoryRegion) : Z := type_id r.

Definition Compare (lhs rhs : KMemoryRegion) : Z :=
  if GetAddress lhs <? GetAddress rhs then -1
  else if GetAddress lhs <=? GetLastAddress rhs then 0
  else 1.

(** [Reset] overwrites every member of the object it is called on. *)
Definition Reset (self : KMemoryRegion) (a la p r t : Z) : KMemoryRegion :=
  mkKMemoryRegion a la p r t.

Definition IsDerivedFrom (r : KMemoryRegion) (type : Z) : bool :=
  Z.lor (GetType r) type =? GetType r.

Definition HasTypeAttribute (r : KMemoryRegion) (attr : Z) : bool :=
  Z.lor (GetType r) attr =? GetType r.

Definition CanDerive (r : KMemoryRegion) (type : Z) : bool :=
  Z.lor (GetType r) type =? type.

Definition SetType (r : KMemoryRegion) (type : Z) : Result KMemoryRegion :=
  ASSERT (CanDerive r type);;
  mret (mkKMemoryRegion (address r) (last_address r) (pair_address r) (attributes r) type).

Definition Contains (r : KMemoryRegion) (address : Z) : Result bool :=
  ASSERT (negb (GetEndAddress r =? 0));;
  mret ((GetAddress r <=? address) && (address <=? GetLastAddress r)).

Definition SetPairAddress (r : KMemoryRegion) (a : Z) : KMemoryRegion :=
  mkKMemoryRegion (address r) (last_address r) a (attributes r) (type_id r).

Definition SetTypeAttribute (r : KMemoryRegion) (attr : Z) : KMemoryRegion :=
  mkKMemoryRegion (address r) (last_address r) (pair_address r) (attributes r)
     (Z.lor (type_id r) attr).

(** ** KMemoryRegionTree *)

(** Modelled from the spec: the intrusive red-black tree [TreeType] of
    [common/intrusive_red_black_tree.h], which is not part of the sources at
    hand.  The spec describes it as an ordered collection keyed by [Compare]
    and searched by a standard ordered-tree descent.  It is a binary search
    tree here; colours and rotations are left out, as they change neither
    the in-order sequence nor the node a descent by [Compare] reaches. *)
Inductive TreeType : Type :=
  | Leaf
  | Node (left : TreeType) (value : KMemoryRegion) (right : TreeType).

(** Modelled from the spec: the sequence visited from [begin()] to [end()],
    the regions in the tree's order. *)
Fixpoint tree_iterate (tree : TreeType) : list KMemoryRegion :=
  match tree with
  | Leaf => []
  | Node l x r => tree_iterate l ++ x :: tree_iterate r
  end.

(** Modelled from the spec: [m_tree.find(ref)], the ordered-tree search by
    [Compare]; [None] is the [end()] iterator. *)
Fixpoint tree_find (tree : TreeType) (ref : KMemoryRegion) : option KMemoryRegion :=
  match tree with
  | Leaf => None
  | Node l x r =>
      let comp := Compare ref x in
      if comp <? 0 then tree_find l ref
      else if 0 <? comp then tree_find r ref
      else Some x
  end.

(** Modelled from the spec: [m_tree.insert(ref)], which links the node at the
    leaf position its key descends to. *)
Fixpoint tree_insert (tree : TreeType) (ref : KMemoryRegion) : TreeType :=
  match tree with
  | Leaf => Node Leaf ref Leaf
  | Node l x r =>
      if Compare ref x <? 0 then Node (tree_insert l ref) x r
      else Node l x (tree_insert r ref)
  end.

(** Modelled from the spec: the subtree left when a node is unlinked, its two
    subtrees joined in order. *)
Fixpoint tree_join (l r : TreeType) : TreeType :=
  match l with
  | Leaf => r
  | Node ll x lr => Node ll x (tree_join lr r)
  end.

(** Modelled from the spec: [m_tree.erase(iterator_to(ref))]; the node is
    the one a descent by the key of [ref] reaches. *)
Fixpoint tree_erase (tree : TreeType) (ref : KMemoryRegion) : TreeType :=
  match tree with
  | Leaf => Leaf
  | Node l x r =>
      let comp := Compare ref x in
      if comp <? 0 then Node (tree_erase l ref) x r
      else if 0 <? comp then Node l x (tree_erase r ref)
      else tree_join l r
  end.

Definition FindModifiable (tree : TreeType) (address : Z) : option KMemoryRegion :=
  tree_find tree (KMemoryRegion4 address address 0 0).

Definition Find (tree : TreeType) (address : Z) : option KMemoryRegion :=
  tree_find tree (KMemoryRegion4 address address 0 0).

Definition FindByType (tree : TreeType) (type_id : Z) : option KMemoryRegion :=
  List.find (fun it => GetType it =? type_id) (tree_iterate tree).

Definition FindByTypeAndAttribute (tree : TreeType) (type_id attr : Z) : option KMemoryRegion :=
  List.find (fun it => (GetType it =? type_id) && (GetAttributes it =? attr))
            (tree_iterate tree).

Definition FindFirstDerived (tree : TreeType) (type_id : Z) : option KMemoryRegion :=
  List.find (fun it => IsDerivedFrom it type_id) (tree_iterate tree).

Definition FindLastDerived (tree : TreeType) (type_id : Z) : option KMemoryRegion :=
  foldl (fun region it => if IsDerivedFrom it type_id then Some it else region)
        None (tree_iterate tree).

(** [DerivedRegionExtents]: two pointers into the tree, null when unset. *)
Record DerivedRegionExtents : Type := mkDerivedRegionExtents {
  first_region : option KMemoryRegion;
  last_region : option KMemoryRegion
}.

Definition DerivedRegionExtents0 : DerivedRegionExtents :=
  mkDerivedRegionExtents None None.

(** The accessors dereference their pointer; on a null pointer they have no
    value. *)
Definition DerivedRegionExtents_GetAddress (e : DerivedRegionExtents) : option Z :=
  GetAddress <$> first_region e.

Definition DerivedRegionExtents_GetLastAddress (e : DerivedRegionExtents) : option Z :=
  GetLastAddress <$> last_region e.

Definition DerivedRegionExtents_GetEndAddress (e : DerivedRegionExtents) : option Z :=
  (fun la => u64 (la + 1)) <$> DerivedRegionExtents_GetLastAddress e.

Definition DerivedRegionExtents_GetSize (e : DerivedRegionExtents) : option Z :=
  en ← DerivedRegionExtents_GetEndAddress e;
  a ← DerivedRegionExtents_GetAddress e;
  Some (u64 (en - a)).

Definition is_null {A} (p : option A) : bool :=
  match p with
  | None => true
  | Some _ => false
  end.

(** One turn of the loop of [GetDerivedRegionExtents]. *)
Definition extents_step (type_id : Z) (extents : DerivedRegionExtents)
    (it : KMemoryRegion) : DerivedRegionExtents :=
  if IsDerivedFrom it type_id then
    mkDerivedRegionExtents
      (if is_null (first_region extents) then Some it else first_region extents)
      (Some it)
  else extents.

Definition GetDerivedRegionExtents (tree : TreeType) (type_id : Z)
    : Result DerivedRegionExtents :=
  let extents := DerivedRegionExtents0 in
  ASSERT (is_null (first_region extents));;
  ASSERT (is_null (last_region extents));;
  let extents := foldl (extents_step type_id) extents (tree_iterate tree) in
  ASSERT (negb (is_null (first_region extents)));;
  ASSERT (negb (is_null (last_region extents)));;
  mret extents.

(** The lowest multiple of [alignment] at or above [a]. *)
Definition align_up (a alignment : Z) : Z :=
  (a + alignment - 1) / alignment * alignment.

(** Modelled from the spec: the number of aligned addresses inside region
    [r] at which [size] addresses fit before the end of the region; none
    when [r] is not derived from [type_id].  A placement occupies at least
    its own address. *)
Definition aligned_offsets (r : KMemoryRegion) (size alignment type_id : Z) : Z :=
  let first := align_up (GetAddress r) alignment in
  let last := GetLastAddress r - Z.max size 1 + 1 in
  if IsDerivedFrom r type_id && (first <=? last)
  then (last - first) / alignment + 1
  else 0.

(** Modelled from the spec: the valid aligned offsets of all matching
    regions, counted in the tree's order. *)
Fixpoint total_aligned_offsets (regions : list KMemoryRegion)
    (size alignment type_id : Z) : Z :=
  match regions with
  | [] => 0
  | r :: rest =>
      aligned_offsets r size alignment type_id
      + total_aligned_offsets rest size alignment type_id
  end.

(** Modelled from the spec: the valid aligned offset number [index]. *)
Fixpoint nth_aligned_offset (regions : list KMemoryRegion)
    (size alignment type_id index : Z) : option Z :=
  match regions with
  | [] => None
  | r :: rest =>
      let n := aligned_offsets r size alignment type_id in
      if index <? n
      then Some (align_up (GetAddress r) alignment + index * alignment)
      else nth_aligned_offset rest size alignment type_id (index - n)
  end.

(** Modelled from the spec: [GetRandomAlignedRegion], declared in the header
    and defined elsewhere.  Among the regions derived from [type_id] it
    takes the aligned addresses at which [size] addresses fit inside one
    region and chooses one of them with the value [random] drawn from the
    random source; it fails fatally when no region has room. *)
Definition GetRandomAlignedRegion (random : Z) (tree : TreeType)
    (size alignment type_id : Z) : Result Z :=
  let regions := tree_iterate tree in
  let total := total_aligned_offsets regions size alignment type_id in
  ASSERT (0 <? total);;
  match nth_aligned_offset regions size alignment type_id (random mod total) with
  | Some candidate => mret candidate
  | None => Fatal
  end.

(** [GetRandomAlignedRegionWithGuard], with the search it calls as an
    argument. *)
Definition GetRandomAlignedRegionWithGuard
    (GetRandomAlignedRegion : TreeType -> Z -> Z -> Z -> Result Z)
    (tree : TreeType) (size alignment type_id guard_size : Z) : Result Z :=
  r ← GetRandomAlignedRegion tree (u64 (size + 2 * guard_size)) alignment type_id;
  mret (u64 (r + guard_size)).

(** ** KMemoryRegionAllocator *)

Definition MaxMemoryRegions : Z := 200.

Record KMemoryRegionAllocator : Type := mkKMemoryRegionAllocator {
  region_heap : list KMemoryRegion;
  num_regions : Z
}.

(** The allocator as constructed, for a heap of [capacity] slots. *)
Definition KMemoryRegionAllocator_of (capacity : Z) : KMemoryRegionAllocator :=
  mkKMemoryRegionAllocator (replicate (Z.to_nat capacity) KMemoryRegion0) 0.

Definition KMemoryRegionAllocator0 : KMemoryRegionAllocator :=
  KMemoryRegionAllocator_of MaxMemoryRegions.

(** [Allocate] for a heap of [capacity] slots; [args] is the region the
    forwarded constructor arguments build.  The result is the index of the
    slot the returned pointer refers to, and the allocator afterwards. *)
Definition Allocate_of (capacity : Z) (self : KMemoryRegionAllocator)
    (args : KMemoryRegion) : Result (nat * KMemoryRegionAllocator) :=
  ASSERT (num_regions self <? capacity);;
  let region := Z.to_nat (num_regions self) in
  mret (region,
        mkKMemoryRegionAllocator (<[region := args]> (region_heap self))
                                 (u64 (num_regions self + 1))).

Definition Allocate : KMemoryRegionAllocator -> KMemoryRegion ->
    Result (nat * KMemoryRegionAllocator) :=
  Allocate_of MaxMemoryRegions.

(** A run of [Allocate] calls, one per element of [args]; it stops at the
    first fatal call. *)
Fixpoint Allocate_all (capacity : Z) (self : KMemoryRegionAllocator)
    (args : list KMemoryRegion) : Result (list nat * KMemoryRegionAllocator) :=
  match args with
  | [] => mret ([], self)
  | a :: rest =>
      '(slot, self) ← Allocate_of capacity self a;
      '(slots, self) ← Allocate_all capacity self rest;
      mret (slot :: slots, self)
  end.

(** ** Insertion into the tree *)

(** Modelled from the spec: [InsertDirectly], declared in the header and
    defined elsewhere; it draws a new region from the allocator and inserts
    it without touching the ones present. *)
Definition InsertDirectly (tree : TreeType) (allocator : KMemoryRegionAllocator)
    (address last_address attr type_id : Z)
    : Result (TreeType * KMemoryRegionAllocator) :=
  let region := KMemoryRegion4 address last_address attr type_id in
  '(_, allocator) ← Allocate allocator region;
  mret (tree_insert tree region, allocator).

(** Modelled from the spec: [Insert], declared in the header and defined
    elsewhere.  It locates the region whose span contains
    [address, address + size), asserts that it carries [old_attr], and
    replaces it by up to three pieces: the prefix before [address] and the
    suffix after the range, both as the region was, and the middle piece
    with [new_attr] and [type_id].  The region found is reused for the
    first piece; every further piece is a new region drawn from the
    allocator, whose exhaustion is fatal.  The bounds of the pieces are
    64-bit values.  It returns [false] and changes nothing when no single
    region contains the range. *)
Definition Insert (tree : TreeType) (allocator : KMemoryRegionAllocator)
    (address size type_id new_attr old_attr : Z)
    : Result (bool * TreeType * KMemoryRegionAllocator) :=
  match FindModifiable tree address with
  | None => mret (false, tree, allocator)
  | Some found =>
      if address + size <=? GetLastAddress found + 1 then
        ASSERT (GetAttributes found =? old_attr);;
        let old_address := GetAddress found in
        let old_last := GetLastAddress found in
        let old_pair := GetPairAddress found in
        let old_type := GetType found in
        let inserted_last := u64 (address + size - 1) in
        let tree := tree_erase tree found in
        '(tree, allocator) ←
          (if old_address <? address then
             let tree :=
               tree_insert tree
                 (Reset found old_address (u64 (address - 1)) old_pair
                    old_attr old_type) in
             let middle :=
               KMemoryRegion5 address inserted_last old_pair new_attr type_id in
             '(_, allocator) ← Allocate allocator middle;
             mret (tree_insert tree middle, allocator)
           else
             mret (tree_insert tree
                     (Reset found address inserted_last old_pair new_attr
                        type_id),
                   allocator));
        '(tree, allocator) ←
          (if address + size <=? old_last then
             let suffix :=
               KMemoryRegion5 (u64 (address + size)) old_last old_pair
                 old_attr old_type in
             '(_, allocator) ← Allocate allocator suffix;
             mret (tree_insert tree suffix, allocator)
           else mret (tree, allocator));
        mret (true, tree, allocator)
      else mret (false, tree, allocator)
  end.

(** ** Invariants of the region tree *)

(** A region's bounds are inclusive: [address <= last_address]. *)
Definition region_wf (r : KMemoryRegion) : Prop :=
  GetAddress r <= GetLastAddress r.

(** [r1] lies entirely below [r2]. *)
Definition region_below (r1 r2 : KMemoryRegion) : Prop :=
  GetLastAddress r1 < GetAddress r2.

(** [a] is inside the span of [r]. *)
Definition in_span (r : KMemoryRegion) (a : Z) : Prop :=
  GetAddress r <= a <= GetLastAddress r.

(** The stored regions are well formed, in ascending address order and
    pairwise non-overlapping. *)
Definition tree_ok (tree : TreeType) : Prop :=
  Forall region_wf (tree_iterate tree) /\
  StronglySorted region_below (tree_iterate tree).

(** The addresses [lo <= a < hi] all lie in regions of the tree derived from
    [type_id]. *)
Definition within_derived (tree : TreeType) (type_id lo hi : Z) : Prop :=
  forall a, lo <= a < hi ->
    exists r, r ∈ tree_iterate tree ∧ IsDerivedFrom r type_id = true ∧ in_span r a.

(** The regions of a sequence that are derived from [type_id], in the order
    of the sequence. *)
Definition derived_regions (type_id : Z) (l : list KMemoryRegion)
    : list KMemoryRegion :=
  filter (fun r => IsDerivedFrom r type_id = true) l.

(** ** A small layout *)

(** Three regions seeded in bootstrap order: [0x10000, 0x1FFFF] of type 3,
    [0x0, 0xFFFF] of type 1 and [0x20000, 0x2FFFF] of type 2. *)
Definition seeded_tree : TreeType :=
  tree_insert
    (tree_insert
       (tree_insert Leaf (KMemoryRegion4 0x10000 0x1FFFF 0 3))
       (KMemoryRegion4 0x0 0xFFFF 0 1))
    (KMemoryRegion4 0x20000 0x2FFFF 0 2).

(** The allocator after that seeding: three slots taken. *)
Definition seeded_allocator : KMemoryRegionAllocator :=
  mkKMemoryRegionAllocator
    (<[2%nat := KMemoryRegion4 0x20000 0x2FFFF 0 2]>
       (<[1%nat := KMemoryRegion4 0x0 0xFFFF 0 1]>
          (<[0%nat := KMemoryRegion4 0x10000 0x1FFFF 0 3]>
             (replicate (Z.to_nat MaxMemoryRegions) KMemoryRegion0))))
    3.

(** The same heap with every slot counted as taken. *)
Definition exhausted_allocator : KMemoryRegionAllocator :=
  mkKMemoryRegionAllocator (region_heap seeded_allocator) MaxMemoryRegions.

(** ** Further notions used in the properties *)

(** Both bounds of the region are 64-bit values. *)
Definition region_u64 (r : KMemoryRegion) : Prop :=
  is_u64 (GetAddress r) /\ is_u64 (GetLastAddress r).

(** The spans of two regions share an address. *)
Definition spans_overlap (r1 r2 : KMemoryRegion) : Prop :=
  exists a, in_span r1 a /\ in_span r2 a.

(** The count of an allocator is within its heap of [MaxMemoryRegions]
    slots. *)
Definition allocator_ok (self : KMemoryRegionAllocator) : Prop :=
  0 <= num_regions self <= MaxMemoryRegions /\
  length (region_heap self) = Z.to_nat MaxMemoryRegions.

(** An allocator in which three slots are taken. *)
Definition used_allocator : KMemoryRegionAllocator :=
  mkKMemoryRegionAllocator
    (<[0%nat := KMemoryRegion4 0x0 0xFFFF 0 1]>
       (<[1%nat := KMemoryRegion4 0x10000 0x1FFFF 0 3]>
          (<[2%nat := KMemoryRegion4 0x20000 0x2FFFF 0 2]>
             (replicate (Z.to_nat MaxMemoryRegions) KMemoryRegion0))))
    3.

(** * Properties *)

(** ** Assertions and the type lattice *)

Lemma ASSERT_true (cond : bool) : ASSERT cond = Ok tt <-> cond = true.
Proof. destruct cond; simpl; split; congruence. Qed.

Lemma ASSERT_false (cond : bool) : ASSERT cond = Fatal <-> cond = false.
Proof. destruct cond; simpl; split; congruence. Qed.

Lemma CanDerive_spec (r : KMemoryRegion) (type : Z) :
  CanDerive r type = true <-> Z.lor (GetType r) type = type.
Proof. unfold CanDerive. apply Z.eqb_eq. Qed.

Lemma IsDerivedFrom_spec (r : KMemoryRegion) (type : Z) :
  IsDerivedFrom r type = true <-> Z.lor (GetType r) type = GetType r.
Proof. unfold IsDerivedFrom. apply Z.eqb_eq. Qed.

Lemma SetType_Ok (r : KMemoryRegion) (type : Z) :
  CanDerive r type = true ->
  SetType r type =
    Ok (mkKMemoryRegion (address r) (last_address r) (pair_address r)
                        (attributes r) type).
Proof. intros H. unfold SetType. rewrite H. reflexivity. Qed.

Lemma SetType_Fatal (r : KMemoryRegion) (type : Z) :
  CanDerive r type = false -> SetType r type = Fatal.
Proof. intros H. unfold SetType. rewrite H. reflexivity. Qed.

(** Bitwise inclusion is transitive: what [u] holds is held by every type
    the current type can derive. *)
Lemma lor_absorb_trans (ty u t : Z) :
  Z.lor ty u = ty -> Z.lor ty t = t -> Z.lor t u = t.
Proof.
  intros Hu Ht.
  rewrite <- Ht at 1.
  rewrite (Z.lor_comm ty t), <- Z.lor_assoc, Hu, Z.lor_comm.
  exact Ht.
Qed.

(** C3: [SetType r t] succeeds exactly when [CanDerive r t], that is when
    [(type_id | t) == t], holds before the call, and trips the assertion
    otherwise; after a successful call the type bitmask is [t] and
    [IsDerivedFrom t] is true. *)
Theorem SetType_succeeds_iff_CanDerive (r : KMemoryRegion) (t : Z) :
  ((exists r', SetType r t = Ok r') <-> CanDerive r t = true) /\
  (SetType r t = Fatal <-> CanDerive r t = false) /\
  (CanDerive r t = true <-> Z.lor (GetType r) t = t) /\
  (forall r', SetType r t = Ok r' ->
     GetType r' = t /\ IsDerivedFrom r' t = true).
Proof.
  destruct (CanDerive r t) eqn:Hc.
  - rewrite (SetType_Ok _ _ Hc). repeat split.
    + eauto.
    + discriminate.
    + discriminate.
    + intros _. now apply CanDerive_spec.
    + inversion H; subst; reflexivity.
    + inversion H; subst. apply IsDerivedFrom_spec. apply Z.lor_diag.
  - rewrite (SetType_Fatal _ _ Hc). repeat split; try discriminate.
    + intros [r' H]. discriminate.
    + intros H. apply CanDerive_spec in H. congruence.
Qed.

Lemma SetType_succeeds_iff_CanDerive_witness :
  SetType (KMemoryRegion4 0 4095 0 1) 3 = Ok (KMemoryRegion4 0 4095 0 3) /\
  GetType (KMemoryRegion4 0 4095 0 3) = 3 /\
  IsDerivedFrom (KMemoryRegion4 0 4095 0 3) 3 = true.
Proof.
  split; [reflexivity |].
  apply (SetType_succeeds_iff_CanDerive (KMemoryRegion4 0 4095 0 1) 3).
  reflexivity.
Defined.

(** C10: a successful [SetType] keeps every derivation the region had: if
    [IsDerivedFrom u] and [CanDerive t] hold before the call, the call
    succeeds and afterwards both [IsDerivedFrom u] and [IsDerivedFrom t]
    hold; no bit of the old type is cleared. *)
Theorem SetType_preserves_derivation (r : KMemoryRegion) (u t : Z) :
  IsDerivedFrom r u = true ->
  CanDerive r t = true ->
  exists r', SetType r t = Ok r' /\
    IsDerivedFrom r' u = true /\
    IsDerivedFrom r' t = true /\
    (forall i, Z.testbit (GetType r) i = true -> Z.testbit (GetType r') i = true).
Proof.
  intros Hu Ht. eexists. split; [apply SetType_Ok; exact Ht |].
  apply IsDerivedFrom_spec in Hu. apply CanDerive_spec in Ht.
  repeat split.
  - apply IsDerivedFrom_spec. simpl. unfold GetType in *.
    eapply lor_absorb_trans; eauto.
  - apply IsDerivedFrom_spec. apply Z.lor_diag.
  - intros i Hi. unfold GetType in *. simpl.
    rewrite <- Ht, Z.lor_spec, Hi. reflexivity.
Qed.

Lemma SetType_preserves_derivation_witness :
  exists r', SetType (KMemoryRegion4 0 4095 0 5) 7 = Ok r' /\
    IsDerivedFrom r' 1 = true /\
    IsDerivedFrom r' 7 = true /\
    (forall i, Z.testbit (GetType (KMemoryRegion4 0 4095 0 5)) i = true ->
               Z.testbit (GetType r') i = true).
Proof.
  apply (SetType_preserves_derivation (KMemoryRegion4 0 4095 0 5) 1 7);
    reflexivity.
Defined.

(** ** Construction *)

(** C9 as stated fails: the two-argument constructor is not given a pair
    address, and the region it builds has pair address [0]. *)
Lemma pair_address_default_counterexample :
  GetPairAddress (KMemoryRegion2 0 4095) = 0 /\
  GetPairAddress (KMemoryRegion2 0 4095) <> 2 ^ 64 - 1.
Proof. split; [reflexivity | discriminate]. Qed.

(** C9, amended: a region constructed from bounds, attributes and type has
    pair address [2^64 - 1]; the default constructor and the constructor
    from bounds alone leave the pair address at [0]. *)
Theorem pair_address_of_constructors (a la attr ty : Z) :
  GetPairAddress (KMemoryRegion4 a la attr ty) = 2 ^ 64 - 1 /\
  GetPairAddress (KMemoryRegion2 a la) = 0 /\
  GetPairAddress KMemoryRegion0 = 0.
Proof. repeat split. Qed.

(** ** Containment *)

Lemma GetEndAddress_zero (r : KMemoryRegion) :
  is_u64 (GetLastAddress r) ->
  (GetEndAddress r = 0 <-> GetLastAddress r = u64_max).
Proof.
  unfold GetEndAddress, u64, is_u64, u64_max. intros H. split; intros E.
  - destruct (Z.eq_dec (GetLastAddress r) (2 ^ 64 - 1)) as [|Hne]; [assumption |].
    rewrite Z.mod_small in E by lia. lia.
  - rewrite E. reflexivity.
Qed.

Lemma Contains_Ok (r : KMemoryRegion) (a : Z) :
  GetEndAddress r <> 0 ->
  Contains r a = Ok ((GetAddress r <=? a) && (a <=? GetLastAddress r)).
Proof.
  intros H. unfold Contains.
  apply Z.eqb_neq in H. rewrite H. reflexivity.
Qed.

Lemma Contains_Fatal (r : KMemoryRegion) (a : Z) :
  GetEndAddress r = 0 -> Contains r a = Fatal.
Proof. intros H. unfold Contains. rewrite H. reflexivity. Qed.

(** C8 as stated fails: the default instance has end address [1] and size
    [1], and querying it trips no assertion. *)
Lemma Contains_default_counterexample :
  GetEndAddress KMemoryRegion0 = 1 /\
  GetSize KMemoryRegion0 = 1 /\
  Contains KMemoryRegion0 0 = Ok true /\
  Contains KMemoryRegion0 0 <> Fatal.
Proof. repeat split. discriminate. Qed.

(** C8, amended: when the end address [last_address + 1], computed modulo
    [2^64], is non-zero, [Contains a] returns true exactly when
    [address <= a <= last_address]; when it is zero the call is a fatal
    assertion.  The end address of a region is zero exactly when its last
    address is [2^64 - 1]; a default instance is not rejected. *)
Theorem Contains_iff_in_span (r : KMemoryRegion) (a : Z) :
  (GetEndAddress r <> 0 ->
     exists b, Contains r a = Ok b /\
       (b = true <-> GetAddress r <= a <= GetLastAddress r)) /\
  (GetEndAddress r = 0 -> Contains r a = Fatal) /\
  (is_u64 (GetLastAddress r) ->
     (GetEndAddress r = 0 <-> GetLastAddress r = 2 ^ 64 - 1)) /\
  Contains KMemoryRegion0 a = Ok ((0 <=? a) && (a <=? 0)).
Proof.
  repeat split.
  - intros H. eexists. split; [apply Contains_Ok; exact H |].
    rewrite andb_true_iff, !Z.leb_le. reflexivity.
  - apply Contains_Fatal.
  - apply GetEndAddress_zero in H. apply H.
  - apply GetEndAddress_zero in H. apply H.
Qed.

Lemma Contains_iff_in_span_witness :
  (exists b, Contains (KMemoryRegion4 4096 8191 0 1) 5000 = Ok b /\
     (b = true <-> 4096 <= 5000 <= 8191)) /\
  Contains (KMemoryRegion4 0 (2 ^ 64 - 1) 0 1) 5000 = Fatal /\
  (GetEndAddress (KMemoryRegion4 0 (2 ^ 64 - 1) 0 1) = 0 <->
   GetLastAddress (KMemoryRegion4 0 (2 ^ 64 - 1) 0 1) = 2 ^ 64 - 1).
Proof.
  split; [| split].
  - apply (Contains_iff_in_span (KMemoryRegion4 4096 8191 0 1) 5000).
    vm_compute. discriminate.
  - apply (Contains_iff_in_span (KMemoryRegion4 0 (2 ^ 64 - 1) 0 1) 5000).
    reflexivity.
  - apply (Contains_iff_in_span (KMemoryRegion4 0 (2 ^ 64 - 1) 0 1) 5000).
    vm_compute. split; discriminate.
Defined.

(** ** The compare rule *)

Lemma Compare_lt (lhs rhs : KMemoryRegion) :
  (Compare lhs rhs <? 0) = true <-> GetAddress lhs < GetAddress rhs.
Proof.
  unfold Compare.
  destruct (Z.ltb_spec (GetAddress lhs) (GetAddress rhs));
    destruct (Z.leb_spec (GetAddress lhs) (GetLastAddress rhs));
    rewrite Z.ltb_lt; lia.
Qed.

Lemma Compare_gt (lhs rhs : KMemoryRegion) :
  (0 <? Compare lhs rhs) = true <->
  GetAddress rhs <= GetAddress lhs /\ GetLastAddress rhs < GetAddress lhs.
Proof.
  unfold Compare.
  destruct (Z.ltb_spec (GetAddress lhs) (GetAddress rhs));
    destruct (Z.leb_spec (GetAddress lhs) (GetLastAddress rhs));
    rewrite Z.ltb_lt; lia.
Qed.

Lemma Compare_eq (lhs rhs : KMemoryRegion) :
  Compare lhs rhs = 0 <-> in_span rhs (GetAddress lhs).
Proof.
  unfold Compare, in_span.
  destruct (Z.ltb_spec (GetAddress lhs) (GetAddress rhs));
    destruct (Z.leb_spec (GetAddress lhs) (GetLastAddress rhs)); lia.
Qed.

(** ** Splitting the in-order sequence at a node *)

Section list_split.
Context {A : Type}.
Implicit Types l : list A.

Lemma app_cons_eq_app l1 x l2 k1 k2 :
  l1 ++ x :: l2 = k1 ++ k2 ->
  (exists k, l1 = k1 ++ k /\ k2 = k ++ x :: l2) \/
  (exists k, k1 = l1 ++ x :: k /\ l2 = k ++ k2).
Proof.
  intros H. apply app_eq_inv in H as [[k [-> ->]] | [k [-> H]]].
  - left. eauto.
  - destruct k as [|y k]; simpl in H.
    + left. exists []. rewrite !app_nil_r. simpl. split; [reflexivity | congruence].
    + right. injection H as -> ->. eauto.
Qed.

Lemma app_cons_eq_app_cons l1 x l2 k1 y k2 :
  l1 ++ x :: l2 = k1 ++ y :: k2 ->
  (exists k, l1 = k1 ++ y :: k /\ k2 = k ++ x :: l2) \/
  (l1 = k1 /\ x = y /\ l2 = k2) \/
  (exists k, k1 = l1 ++ x :: k /\ l2 = k ++ y :: k2).
Proof.
  intros H. apply app_cons_eq_app in H as [[k [-> H]] | [k [-> ->]]].
  - destruct k as [|z k]; simpl in H.
    + right. left. injection H as -> ->. rewrite app_nil_r. auto.
    + left. injection H as -> ->. eauto.
  - right. right. eauto.
Qed.
End list_split.

(** ** Search, insertion and removal on the in-order sequence *)

Lemma tree_iterate_join (l r : TreeType) :
  tree_iterate (tree_join l r) = tree_iterate l ++ tree_iterate r.
Proof.
  induction l as [|ll _ x lr IH]; simpl; [reflexivity |].
  rewrite IH, <- app_assoc. reflexivity.
Qed.

(** A search returns a stored region that compares equal to the key. *)
Lemma tree_find_Some (tree : TreeType) (ref x : KMemoryRegion) :
  tree_find tree ref = Some x ->
  x ∈ tree_iterate tree /\ in_span x (GetAddress ref).
Proof.
  induction tree as [|l IHl y r IHr]; simpl; [discriminate |].
  destruct (Compare ref y <? 0) eqn:Hlt.
  - intros H. apply IHl in H as [H1 H2]. split; [| exact H2].
    apply elem_of_app. auto.
  - destruct (0 <? Compare ref y) eqn:Hgt.
    + intros H. apply IHr in H as [H1 H2]. split; [| exact H2].
      apply elem_of_app. right. apply elem_of_cons. auto.
    + intros H. injection H as <-. split.
      * apply elem_of_app. right. apply elem_of_cons. auto.
      * apply Compare_eq. apply Z.ltb_ge in Hlt, Hgt. lia.
Qed.

(** The search reaches the region that compares equal to the key when the
    regions before it compare below the key and those after it above. *)
Lemma tree_find_split (tree : TreeType) (ref x : KMemoryRegion)
    (l1 l2 : list KMemoryRegion) :
  tree_iterate tree = l1 ++ x :: l2 ->
  Forall (fun y => (0 <? Compare ref y) = true) l1 ->
  Compare ref x = 0 ->
  Forall (fun y => (Compare ref y <? 0) = true) l2 ->
  tree_find tree ref = Some x.
Proof.
  revert l1 l2.
  induction tree as [|l IHl y r IHr]; simpl; intros l1 l2 E H1 Hx H2.
  - destruct l1; discriminate.
  - apply app_cons_eq_app_cons in E
      as [[k [El ->]] | [[El [-> Er]] | [k [-> Er]]]].
    + apply Forall_app in H2 as [H2 H3]. apply Forall_cons in H3 as [Hy _].
      rewrite Hy. eapply IHl; eauto.
    + rewrite Hx. reflexivity.
    + apply Forall_app in H1 as [_ H1]. apply Forall_cons in H1 as [Hy H1].
      assert ((Compare ref y <? 0) = false) as ->.
      { apply Z.ltb_ge. apply Z.ltb_lt in Hy. lia. }
      rewrite Hy. eapply IHr; eauto.
Qed.

(** Insertion places the new region between the regions that start at or
    below its address and the regions that start above it. *)
Lemma tree_insert_split (tree : TreeType) (ref : KMemoryRegion)
    (l1 l2 : list KMemoryRegion) :
  tree_iterate tree = l1 ++ l2 ->
  Forall (fun y => GetAddress y <= GetAddress ref) l1 ->
  Forall (fun y => GetAddress ref < GetAddress y) l2 ->
  tree_iterate (tree_insert tree ref) = l1 ++ ref :: l2.
Proof.
  revert l1 l2.
  induction tree as [|l IHl y r IHr]; simpl; intros l1 l2 E H1 H2.
  - symmetry in E. apply app_eq_nil in E as [-> ->]. reflexivity.
  - apply app_cons_eq_app in E as [[k [El ->]] | [k [-> Er]]].
    + apply Forall_app in H2 as [H2 H3]. apply Forall_cons in H3 as [Hy _].
      assert ((Compare ref y <? 0) = true) as -> by (apply Compare_lt; lia).
      simpl. rewrite (IHl l1 k El H1 H2), <- app_assoc. reflexivity.
    + apply Forall_app in H1 as [_ H1]. apply Forall_cons in H1 as [Hy H1].
      assert ((Compare ref y <? 0) = false) as ->.
      { apply not_true_is_false. rewrite Compare_lt. lia. }
      simpl. rewrite (IHr k l2 Er H1 H2), <- app_assoc. reflexivity.
Qed.

(** Removal unlinks the region that compares equal to the key. *)
Lemma tree_erase_split (tree : TreeType) (ref x : KMemoryRegion)
    (l1 l2 : list KMemoryRegion) :
  tree_iterate tree = l1 ++ x :: l2 ->
  Forall (fun y => (0 <? Compare ref y) = true) l1 ->
  Compare ref x = 0 ->
  Forall (fun y => (Compare ref y <? 0) = true) l2 ->
  tree_iterate (tree_erase tree ref) = l1 ++ l2.
Proof.
  revert l1 l2.
  induction tree as [|l IHl y r IHr]; simpl; intros l1 l2 E H1 Hx H2.
  - destruct l1; discriminate.
  - apply app_cons_eq_app_cons in E
      as [[k [El ->]] | [[El [-> Er]] | [k [-> Er]]]].
    + apply Forall_app in H2 as [H2 H3]. apply Forall_cons in H3 as [Hy _].
      rewrite Hy. simpl.
      rewrite (IHl l1 k El H1 Hx H2), <- app_assoc. reflexivity.
    + rewrite Hx. simpl. rewrite tree_iterate_join. congruence.
    + apply Forall_app in H1 as [_ H1]. apply Forall_cons in H1 as [Hy H1].
      assert ((Compare ref y <? 0) = false) as ->.
      { apply Z.ltb_ge. apply Z.ltb_lt in Hy. lia. }
      rewrite Hy. simpl.
      rewrite (IHr k l2 Er H1 Hx H2), <- app_assoc. reflexivity.
Qed.

(** ** Point lookup *)

Lemma tree_ok_split (tree : TreeType) (l1 l2 : list KMemoryRegion)
    (r : KMemoryRegion) :
  tree_ok tree ->
  tree_iterate tree = l1 ++ r :: l2 ->
  region_wf r /\
  Forall (fun y => region_wf y /\ region_below y r) l1 /\
  Forall (fun y => region_wf y /\ region_below r y) l2.
Proof.
  intros [Hwf Hs] E. rewrite E in Hwf, Hs.
  apply Forall_app in Hwf as [Hwf1 Hwf2].
  apply Forall_cons in Hwf2 as [Hr Hwf2].
  apply StronglySorted_app in Hs as (H12 & _ & Hs2).
  apply StronglySorted_cons in Hs2 as [Hr2 _].
  split; [exact Hr |]. split.
  - apply Forall_forall. intros y Hy. split.
    + eapply Forall_forall in Hwf1; eauto.
    + apply H12; [exact Hy |]. apply elem_of_cons. auto.
  - apply Forall_forall. intros y Hy. split.
    + eapply Forall_forall in Hwf2; eauto.
    + eapply Forall_forall in Hr2; eauto.
Qed.

(** A key whose address lies in the span of [r] compares above the regions
    below [r], equal to [r] and below the regions above [r]. *)
Lemma Compare_around (ref r : KMemoryRegion) (l1 l2 : list KMemoryRegion) :
  in_span r (GetAddress ref) ->
  Forall (fun y => region_wf y /\ region_below y r) l1 ->
  Forall (fun y => region_wf y /\ region_below r y) l2 ->
  Forall (fun y => (0 <? Compare ref y) = true) l1 /\
  Compare ref r = 0 /\
  Forall (fun y => (Compare ref y <? 0) = true) l2.
Proof.
  intros Hin H1 H2. split; [| split].
  - eapply Forall_impl; [exact H1 |]. intros y [Hw Hb]. apply Compare_gt.
    unfold in_span, region_wf, region_below in *. lia.
  - apply Compare_eq. exact Hin.
  - eapply Forall_impl; [exact H2 |]. intros y [Hw Hb]. apply Compare_lt.
    unfold in_span, region_wf, region_below in *. lia.
Qed.

Lemma Find_in_span (tree : TreeType) (r : KMemoryRegion) (a : Z) :
  tree_ok tree -> r ∈ tree_iterate tree -> in_span r a ->
  Find tree a = Some r.
Proof.
  intros Hok Hr Ha.
  apply list_elem_of_split in Hr as (l1 & l2 & E).
  destruct (tree_ok_split _ _ _ _ Hok E) as (Hw & H1 & H2).
  destruct (Compare_around (KMemoryRegion4 a a 0 0) r l1 l2 Ha H1 H2)
    as (C1 & C0 & C2).
  unfold Find. eapply tree_find_split; eauto.
Qed.

Lemma seeded_tree_ok : tree_ok seeded_tree.
Proof.
  split.
  - repeat constructor; unfold region_wf; simpl; lia.
  - repeat constructor; unfold region_below; simpl; lia.
Qed.

(** C2: in a tree whose regions are well formed, ordered and disjoint,
    [Find a] returns the stored region whose span contains [a].  The probe
    [Find] builds has [address = last_address = a]; [Compare] orders it equal
    to exactly the regions whose span contains [a], before the regions that
    start above [a] and after the regions that end below [a]. *)
Theorem Find_returns_containing_region (tree : TreeType) (r : KMemoryRegion)
    (a : Z) :
  let probe := KMemoryRegion4 a a 0 0 in
  (tree_ok tree -> r ∈ tree_iterate tree ->
     GetAddress r <= a <= GetLastAddress r -> Find tree a = Some r) /\
  (GetAddress probe = a /\ GetLastAddress probe = a) /\
  (Compare probe r = 0 <-> GetAddress r <= a <= GetLastAddress r) /\
  (a < GetAddress r -> Compare probe r = -1) /\
  (GetAddress r <= GetLastAddress r -> GetLastAddress r < a ->
     Compare probe r = 1).
Proof.
  intros probe. split; [| split; [| split; [| split]]].
  - apply Find_in_span.
  - split; reflexivity.
  - apply (Compare_eq probe r).
  - intros H. unfold Compare. simpl.
    destruct (Z.ltb_spec a (GetAddress r)); [reflexivity | lia].
  - intros Hw H. unfold Compare. simpl.
    destruct (Z.ltb_spec a (GetAddress r)); [lia |].
    destruct (Z.leb_spec a (GetLastAddress r)); [lia | reflexivity].
Qed.

Lemma Find_returns_containing_region_witness :
  Find seeded_tree 0x12345 = Some (KMemoryRegion4 0x10000 0x1FFFF 0 3) /\
  Compare (KMemoryRegion4 0x12345 0x12345 0 0)
          (KMemoryRegion4 0x20000 0x2FFFF 0 2) = -1 /\
  Compare (KMemoryRegion4 0x12345 0x12345 0 0)
          (KMemoryRegion4 0x0 0xFFFF 0 1) = 1.
Proof.
  split; [| split].
  - apply (Find_returns_containing_region seeded_tree
             (KMemoryRegion4 0x10000 0x1FFFF 0 3) 0x12345).
    + exact seeded_tree_ok.
    + simpl. apply list_elem_of_In. simpl. auto.
    + simpl. lia.
  - apply (Find_returns_containing_region seeded_tree
             (KMemoryRegion4 0x20000 0x2FFFF 0 2) 0x12345).
    simpl. lia.
  - apply (Find_returns_containing_region seeded_tree
             (KMemoryRegion4 0x0 0xFFFF 0 1) 0x12345); simpl; lia.
Defined.

(** ** Splitting insertion *)

(** The pieces that replace a region [A, B] when [n] addresses from
    [A + k] on are reclassified. *)
Lemma pieces_cover (A B P T0 Old k n T1 New a : Z) :
  0 <= k -> 0 < n -> k + n <= B - A + 1 ->
  (exists p,
     p ∈ (if 0 <? k then [mkKMemoryRegion A (A + k - 1) P Old T0] else [])
         ++ [mkKMemoryRegion (A + k) (A + k + n - 1) P New T1]
         ++ (if A + k + n <=? B
             then [mkKMemoryRegion (A + k + n) B P Old T0] else []) /\
     in_span p a) <->
  A <= a <= B.
Proof.
  intros Hk Hn Hkn. rewrite <- Exists_exists.
  destruct (Z.ltb_spec 0 k); destruct (Z.leb_spec (A + k + n) B); simpl;
    rewrite ?Exists_cons, Exists_nil; unfold in_span; simpl; lia.
Qed.

Lemma pieces_sorted (A B P T0 Old k n T1 New : Z) :
  0 <= k -> 0 < n -> k + n <= B - A + 1 ->
  let pieces :=
    (if 0 <? k then [mkKMemoryRegion A (A + k - 1) P Old T0] else [])
    ++ [mkKMemoryRegion (A + k) (A + k + n - 1) P New T1]
    ++ (if A + k + n <=? B
        then [mkKMemoryRegion (A + k + n) B P Old T0] else []) in
  Forall region_wf pieces /\
  StronglySorted region_below pieces /\
  Forall (fun p => A <= GetAddress p /\ GetLastAddress p <= B) pieces.
Proof.
  intros Hk Hn Hkn.
  destruct (Z.ltb_spec 0 k); destruct (Z.leb_spec (A + k + n) B); simpl;
    (split; [| split]); repeat constructor;
    unfold region_wf, region_below; simpl; lia.
Qed.

(** Replacing a region by ordered pieces inside its span keeps the
    sequence ordered. *)
Lemma sorted_replace (l1 l2 ps : list KMemoryRegion) (r : KMemoryRegion) :
  StronglySorted region_below (l1 ++ r :: l2) ->
  StronglySorted region_below ps ->
  Forall (fun p => GetAddress r <= GetAddress p /\
                   GetLastAddress p <= GetLastAddress r) ps ->
  StronglySorted region_below (l1 ++ ps ++ l2).
Proof.
  intros Hs Hps Hin.
  apply StronglySorted_app in Hs as (H12 & Hs1 & Hs2).
  apply StronglySorted_cons in Hs2 as [Hr2 Hs2].
  rewrite Forall_forall in Hr2, Hin.
  apply StronglySorted_app_2; [| exact Hs1 |].
  - intros x1 x2 Hx1 Hx2. apply elem_of_app in Hx2 as [Hx2 | Hx2].
    + assert (region_below x1 r) as Hb
        by (apply H12; [exact Hx1 | apply elem_of_cons; auto]).
      apply Hin in Hx2. unfold region_below in *. lia.
    + apply H12; [exact Hx1 | apply elem_of_cons; auto].
  - apply StronglySorted_app_2; [| exact Hps | exact Hs2].
    intros x1 x2 Hx1 Hx2. apply Hin in Hx1. apply Hr2 in Hx2.
    unfold region_below in *. lia.
Qed.

(** Insertion of a further piece after the pieces already linked. *)
Lemma tree_insert_piece (tree : TreeType) (ref : KMemoryRegion)
    (before ps after : list KMemoryRegion) :
  tree_iterate tree = before ++ ps ++ after ->
  Forall (fun y => GetAddress y <= GetAddress ref) before ->
  Forall (fun y => GetAddress y <= GetAddress ref) ps ->
  Forall (fun y => GetAddress ref < GetAddress y) after ->
  tree_iterate (tree_insert tree ref) = before ++ (ps ++ [ref]) ++ after.
Proof.
  intros E H1 H2 H3.
  rewrite (tree_insert_split tree ref (before ++ ps) after).
  - rewrite <- !app_assoc. reflexivity.
  - rewrite <- app_assoc. exact E.
  - apply Forall_app. auto.
  - exact H3.
Qed.

Lemma u64_id (z : Z) : is_u64 z -> u64 z = z.
Proof. unfold u64, is_u64, u64_max. intros H. apply Z.mod_small. lia. Qed.

Lemma Allocate_Ok (self : KMemoryRegionAllocator) (args : KMemoryRegion) :
  0 <= num_regions self < MaxMemoryRegions ->
  Allocate self args =
    Ok (Z.to_nat (num_regions self),
        mkKMemoryRegionAllocator
          (<[Z.to_nat (num_regions self) := args]> (region_heap self))
          (num_regions self + 1)).
Proof.
  intros H. unfold Allocate, Allocate_of.
  assert ((num_regions self <? MaxMemoryRegions) = true) as ->
    by (apply Z.ltb_lt; lia).
  simpl. rewrite u64_id; [reflexivity |].
  unfold is_u64, u64_max, MaxMemoryRegions in *. lia.
Qed.

Lemma Allocate_Fatal (self : KMemoryRegionAllocator) (args : KMemoryRegion) :
  MaxMemoryRegions <= num_regions self -> Allocate self args = Fatal.
Proof.
  intros H. unfold Allocate, Allocate_of.
  assert ((num_regions self <? MaxMemoryRegions) = false) as ->
    by (apply Z.ltb_ge; lia).
  reflexivity.
Qed.

(** The trees [Insert] builds from the tree without the original region. *)
Lemma pieces_inserted (erased : TreeType) (before after : list KMemoryRegion)
    (A B P T0 Old k n T1 New : Z) :
  tree_iterate erased = before ++ after ->
  Forall (fun y => GetAddress y <= A) before ->
  Forall (fun y => B < GetAddress y) after ->
  0 <= k -> 0 < n -> k + n <= B - A + 1 ->
  let pre := mkKMemoryRegion A (A + k - 1) P Old T0 in
  let mid := mkKMemoryRegion (A + k) (A + k + n - 1) P New T1 in
  let suf := mkKMemoryRegion (A + k + n) B P Old T0 in
  tree_iterate (tree_insert erased mid) = before ++ [mid] ++ after /\
  (A + k + n <= B ->
   tree_iterate (tree_insert (tree_insert erased mid) suf)
     = before ++ ([mid] ++ [suf]) ++ after) /\
  tree_iterate (tree_insert (tree_insert erased pre) mid)
    = before ++ ([pre] ++ [mid]) ++ after /\
  (A + k + n <= B ->
   tree_iterate (tree_insert (tree_insert (tree_insert erased pre) mid) suf)
     = before ++ (([pre] ++ [mid]) ++ [suf]) ++ after).
Proof.
  intros E Hb Ha Hk Hn Hkn pre mid suf.
  assert (forall x, A <= GetAddress x <= B ->
            Forall (fun y => GetAddress y <= GetAddress x) before /\
            Forall (fun y => GetAddress x < GetAddress y) after) as Hx.
  { intros x Hx. split.
    - eapply Forall_impl; [exact Hb |]. simpl. intros; lia.
    - eapply Forall_impl; [exact Ha |]. simpl. intros; lia. }
  assert (A <= GetAddress pre <= B) as Hpre by (simpl; lia).
  assert (A <= GetAddress mid <= B) as Hmid by (simpl; lia).
  assert (tree_iterate (tree_insert erased mid) = before ++ [mid] ++ after)
    as E1.
  { apply tree_insert_split; [exact E | apply Hx | apply Hx]; exact Hmid. }
  assert (tree_iterate (tree_insert erased pre) = before ++ [pre] ++ after)
    as E2.
  { apply tree_insert_split; [exact E | apply Hx | apply Hx]; exact Hpre. }
  assert (tree_iterate (tree_insert (tree_insert erased pre) mid)
          = before ++ ([pre] ++ [mid]) ++ after) as E3.
  { apply tree_insert_piece; [exact E2 | apply Hx; exact Hmid | |
                              apply Hx; exact Hmid].
    repeat constructor. simpl. lia. }
  split; [exact E1 |]. split; [| split; [exact E3 |]].
  - intros Hs. apply tree_insert_piece; [exact E1 | | |].
    + eapply Forall_impl; [exact Hb |]. simpl. intros; lia.
    + repeat constructor. simpl. lia.
    + eapply Forall_impl; [exact Ha |]. simpl. intros; lia.
  - intros Hs. apply tree_insert_piece; [exact E3 | | |].
    + eapply Forall_impl; [exact Hb |]. simpl. intros; lia.
    + repeat constructor; simpl; lia.
    + eapply Forall_impl; [exact Ha |]. simpl. intros; lia.
Qed.

(** The outcome of [Insert] on a region that contains the range: success
    when the allocator has a slot for every piece beyond the first, a fatal
    assertion otherwise. *)
Lemma Insert_split (tree : TreeType) (allocator : KMemoryRegionAllocator)
    (before after : list KMemoryRegion) (A B P T0 Old k n T1 New : Z) :
  tree_ok tree ->
  tree_iterate tree = before ++ mkKMemoryRegion A B P Old T0 :: after ->
  is_u64 A -> is_u64 B ->
  0 <= k -> 0 < n -> k + n <= B - A + 1 ->
  allocator_ok allocator ->
  let needed :=
    (if 0 <? k then 1 else 0) + (if A + k + n <=? B then 1 else 0) in
  (num_regions allocator + needed <= MaxMemoryRegions ->
   exists tree' allocator',
     Insert tree allocator (A + k) n T1 New Old = Ok (true, tree', allocator') /\
     tree_iterate tree' =
       before
       ++ ((if 0 <? k then [mkKMemoryRegion A (A + k - 1) P Old T0] else [])
           ++ [mkKMemoryRegion (A + k) (A + k + n - 1) P New T1]
           ++ (if A + k + n <=? B
               then [mkKMemoryRegion (A + k + n) B P Old T0] else []))
       ++ after /\
     num_regions allocator' = num_regions allocator + needed) /\
  (MaxMemoryRegions < num_regions allocator + needed ->
   Insert tree allocator (A + k) n T1 New Old = Fatal).
Proof.
  intros Hok E HA HB Hk Hn Hkn [Hnum _] needed.
  set (R := mkKMemoryRegion A B P Old T0) in *.
  destruct (tree_ok_split _ _ _ _ Hok E) as (Hw & H1 & H2).
  unfold region_wf in Hw. simpl in Hw.
  assert (FindModifiable tree (A + k) = Some R) as Hfind.
  { destruct (Compare_around (KMemoryRegion4 (A + k) (A + k) 0 0) R before after)
      as (C1 & C0 & C2); auto.
    { unfold in_span. simpl. lia. }
    unfold FindModifiable. eapply tree_find_split; eauto. }
  assert (tree_iterate (tree_erase tree R) = before ++ after) as Herase.
  { destruct (Compare_around R R before after) as (C1 & C0 & C2); auto.
    { unfold in_span. simpl. lia. }
    eapply tree_erase_split; eauto. }
  assert (Forall (fun y => GetAddress y <= A) before) as Hb.
  { eapply Forall_impl; [exact H1 |]. intros y [Hy1 Hy2].
    unfold region_wf, region_below in *. simpl in *. lia. }
  assert (Forall (fun y => B < GetAddress y) after) as Ha.
  { eapply Forall_impl; [exact H2 |]. intros y [Hy1 Hy2].
    unfold region_below in *. simpl in *. lia. }
  destruct (pieces_inserted (tree_erase tree R) before after A B P T0 Old
              k n T1 New Herase Hb Ha Hk Hn Hkn) as (E1 & E2 & E3 & E4).
  unfold is_u64 in HA, HB.
  assert (u64 (A + k + n - 1) = A + k + n - 1) as Um
    by (apply u64_id; unfold is_u64; lia).
  unfold Insert. rewrite Hfind.
  change (GetLastAddress R) with B. change (GetAddress R) with A.
  change (GetAttributes R) with Old. change (GetPairAddress R) with P.
  change (GetType R) with T0.
  assert ((A + k + n <=? B + 1) = true) as -> by (apply Z.leb_le; lia).
  rewrite Z.eqb_refl. rewrite Um.
  assert ((A <? A + k) = (0 <? k)) as ->.
  { destruct (Z.ltb_spec A (A + k)); destruct (Z.ltb_spec 0 k); auto; lia. }
  subst needed. unfold Reset, KMemoryRegion5.
  destruct (Z.ltb_spec 0 k) as [Hk0 | Hk0];
    destruct (Z.leb_spec (A + k + n) B) as [Hs | Hs].
  - (* prefix, middle and suffix *)
    rewrite (u64_id (A + k - 1)) by (unfold is_u64; lia).
    rewrite (u64_id (A + k + n)) by (unfold is_u64; lia).
    split.
    + intros Hroom. rewrite Allocate_Ok by lia. simpl.
      rewrite Allocate_Ok by (simpl; lia). simpl.
      eexists _, _. split; [reflexivity |]. split; [| simpl; lia].
      rewrite E4 by lia. rewrite <- !app_assoc. reflexivity.
    + intros Hfull.
      destruct (Z.lt_ge_cases (num_regions allocator) MaxMemoryRegions).
      * rewrite Allocate_Ok by lia. simpl.
        rewrite Allocate_Fatal by (simpl; lia). reflexivity.
      * rewrite Allocate_Fatal by lia. reflexivity.
  - (* prefix and middle *)
    rewrite (u64_id (A + k - 1)) by (unfold is_u64; lia).
    split.
    + intros Hroom. rewrite Allocate_Ok by lia. simpl.
      eexists _, _. split; [reflexivity |]. split; [| simpl; lia].
      rewrite E3. rewrite <- !app_assoc. reflexivity.
    + intros Hfull. rewrite Allocate_Fatal by lia. reflexivity.
  - (* middle and suffix *)
    rewrite (u64_id (A + k + n)) by (unfold is_u64; lia).
    split.
    + intros Hroom. simpl. rewrite Allocate_Ok by lia. simpl.
      eexists _, _. split; [reflexivity |]. split; [| simpl; lia].
      rewrite E2 by lia. rewrite <- !app_assoc. reflexivity.
    + intros Hfull. simpl. rewrite Allocate_Fatal by lia. reflexivity.
  - (* the middle alone *)
    split.
    + intros Hroom. simpl.
      eexists _, _. split; [reflexivity |]. split; [| lia].
      rewrite E1. reflexivity.
    + intros Hfull. exfalso. lia.
Qed.

Lemma Insert_split_ok (before after pieces : list KMemoryRegion)
    (r : KMemoryRegion) (tree tree' : TreeType) :
  tree_ok tree ->
  tree_iterate tree = before ++ r :: after ->
  tree_iterate tree' = before ++ pieces ++ after ->
  Forall region_wf pieces ->
  StronglySorted region_below pieces ->
  Forall (fun p => GetAddress r <= GetAddress p /\
                   GetLastAddress p <= GetLastAddress r) pieces ->
  tree_ok tree'.
Proof.
  intros [Hwf Hs] E E' Hpw Hps Hpin. unfold tree_ok.
  rewrite E in Hwf, Hs. rewrite E'. split.
  - apply Forall_app in Hwf as [Hwf1 Hwf2].
    apply Forall_cons in Hwf2 as [_ Hwf2].
    rewrite !Forall_app. auto.
  - eapply sorted_replace; eauto.
Qed.

(** Regions of an ordered sequence at different positions share no
    address. *)
Lemma sorted_disjoint (l : list KMemoryRegion) (i j : nat)
    (p q : KMemoryRegion) (a : Z) :
  Forall region_wf l -> StronglySorted region_below l ->
  l !! i = Some p -> l !! j = Some q -> i <> j ->
  in_span p a -> ~ in_span q a.
Proof.
  intros Hwf Hs. revert i j.
  induction Hs as [|x l Hs IH Hx]; intros i j Hi Hj Hne Hp Hq.
  - rewrite lookup_nil in Hi. discriminate.
  - apply Forall_cons in Hwf as [Hwx Hwf]. rewrite Forall_forall in Hx.
    destruct i as [|i], j as [|j]; simpl in *.
    + congruence.
    + injection Hi as ->. apply list_elem_of_lookup_2 in Hj. apply Hx in Hj.
      unfold region_below, in_span in *. lia.
    + injection Hj as ->. apply list_elem_of_lookup_2 in Hi. apply Hx in Hi.
      unfold region_below, in_span in *. lia.
    + eapply (IH Hwf i j); eauto.
Qed.

(** C1 as stated fails.  With [n = 0] and [k = B - A + 1] the address
    [A + k] lies past the region [0x20000, 0x2FFFF]: [Insert] finds no
    region there, returns [false] and leaves the tree as it was.  And when
    the allocator has no free slot, a split that needs new regions is a
    fatal assertion. *)
Lemma Insert_splits_region_counterexample :
  (0 <= 0x10000 /\ 0x10000 + 0 <= 0x2FFFF - 0x20000 + 1) /\
  KMemoryRegion4 0x20000 0x2FFFF 0 2 ∈ tree_iterate seeded_tree /\
  Insert seeded_tree seeded_allocator (0x20000 + 0x10000) 0 7 1 0
    = Ok (false, seeded_tree, seeded_allocator) /\
  (forall p, p ∈ tree_iterate seeded_tree ->
     GetAddress p <> 0x20000 + 0x10000) /\
  (0 <= 0x1000 /\ 0x1000 + 0x2000 <= 0x1FFFF - 0x10000 + 1) /\
  KMemoryRegion4 0x10000 0x1FFFF 0 3 ∈ tree_iterate seeded_tree /\
  Insert seeded_tree exhausted_allocator (0x10000 + 0x1000) 0x2000 7 1 0
    = Fatal.
Proof.
  split; [lia |]. split; [apply list_elem_of_In; simpl; auto |].
  split; [vm_compute; reflexivity |]. split.
  { intros p Hp. apply list_elem_of_In in Hp. simpl in Hp.
    destruct Hp as [<- | [<- | [<- | []]]]; simpl; lia. }
  split; [lia |]. split; [apply list_elem_of_In; simpl; auto |].
  vm_compute. reflexivity.
Qed.

(** The exhausted allocator is what 197 further [Allocate] calls leave of
    the seeded one. *)
Example exhausted_allocator_reached :
  Allocate_all MaxMemoryRegions seeded_allocator (replicate 197 KMemoryRegion0)
    = Ok (seq 3 197, exhausted_allocator).
Proof. vm_compute. reflexivity. Qed.

(** C1, amended: in a tree whose regions are well formed, ordered and
    disjoint, let a stored region with 64-bit bounds span [A, B] with type
    [T0] and attribute [Old].  [Insert (A + k) n T1 New Old], with
    [0 <= k], a non-empty range [0 < n] and [k + n <= B - A + 1], needs one
    new region from the allocator for every piece beyond the first.  When
    the allocator has these slots the call succeeds and leaves in place of
    that region: the prefix [A, A + k - 1] with [T0]/[Old] when [0 < k], the
    middle [A + k, A + k + n - 1] with [T1]/[New], and the suffix
    [A + k + n, B] with [T0]/[Old] when it is non-empty.  The pieces cover
    exactly [A, B], the regions around them are untouched, and the regions
    of the tree stay well formed, ordered and pairwise non-overlapping.
    When the allocator lacks a slot the call is a fatal assertion. *)
Theorem Insert_splits_region (tree : TreeType)
    (allocator : KMemoryRegionAllocator) (A B P T0 Old k n T1 New : Z) :
  let R := mkKMemoryRegion A B P Old T0 in
  let pieces :=
    (if 0 <? k then [mkKMemoryRegion A (A + k - 1) P Old T0] else [])
    ++ [mkKMemoryRegion (A + k) (A + k + n - 1) P New T1]
    ++ (if A + k + n <=? B
        then [mkKMemoryRegion (A + k + n) B P Old T0] else []) in
  let needed :=
    (if 0 <? k then 1 else 0) + (if A + k + n <=? B then 1 else 0) in
  tree_ok tree ->
  allocator_ok allocator ->
  R ∈ tree_iterate tree ->
  region_u64 R ->
  0 <= k -> 0 < n -> k + n <= B - A + 1 ->
  (num_regions allocator + needed <= MaxMemoryRegions ->
   exists before after tree' allocator',
     tree_iterate tree = before ++ R :: after /\
     Insert tree allocator (A + k) n T1 New Old = Ok (true, tree', allocator') /\
     tree_iterate tree' = before ++ pieces ++ after /\
     (forall a, (exists p, p ∈ pieces /\ in_span p a) <-> A <= a <= B) /\
     tree_ok tree' /\
     (forall i j p q a,
        tree_iterate tree' !! i = Some p -> tree_iterate tree' !! j = Some q ->
        i <> j -> in_span p a -> ~ in_span q a) /\
     num_regions allocator' = num_regions allocator + needed) /\
  (MaxMemoryRegions < num_regions allocator + needed ->
   Insert tree allocator (A + k) n T1 New Old = Fatal).
Proof.
  intros R pieces needed Hok Halloc HR [HA HB] Hk Hn Hkn.
  simpl in HA, HB.
  apply list_elem_of_split in HR as (before & after & E).
  destruct (Insert_split tree allocator before after A B P T0 Old k n T1 New)
    as [Hroom Hfull]; auto.
  split; [| exact Hfull].
  intros Hslots. destruct (Hroom Hslots) as (tree' & allocator' & HI & E' & Hn').
  destruct (pieces_sorted A B P T0 Old k n T1 New) as (Pw & Ps & Pin); auto.
  assert (tree_ok tree') as Hok'.
  { eapply (Insert_split_ok before after pieces R); eauto. }
  exists before, after, tree', allocator'.
  split; [exact E |]. split; [exact HI |]. split; [exact E' |].
  split; [intros a; apply pieces_cover; auto |]. split; [exact Hok' |].
  split; [| exact Hn'].
  intros i j p q a Hi Hj Hne. destruct Hok'.
  eapply sorted_disjoint; eauto.
Qed.

(** The seeding of the small layout: three [InsertDirectly] calls from the
    empty tree and the fresh allocator. *)
Example seeded_by_InsertDirectly :
  ('(tree, allocator) ←
     InsertDirectly Leaf KMemoryRegionAllocator0 0x10000 0x1FFFF 0 3;
   '(tree, allocator) ← InsertDirectly tree allocator 0x0 0xFFFF 0 1;
   InsertDirectly tree allocator 0x20000 0x2FFFF 0 2)
  = Ok (seeded_tree, seeded_allocator).
Proof. vm_compute. reflexivity. Qed.

(** The scenario of the spec: one region [0x0, 0xFFFF] of a type [Heap];
    [Insert 0x1000 0x1000 HeapCommitted 1 0] leaves three regions and has
    drawn two more regions from the allocator. *)
Example Insert_heap_scenario (Heap HeapCommitted : Z) :
  ('(tree, allocator) ←
     InsertDirectly Leaf KMemoryRegionAllocator0 0x0 0xFFFF 0 Heap;
   '(ok, tree, allocator) ←
     Insert tree allocator 0x1000 0x1000 HeapCommitted 1 0;
   mret (ok,
         map (fun r => (GetAddress r, GetLastAddress r, GetType r,
                        GetAttributes r))
             (tree_iterate tree),
         num_regions allocator))
  = Ok (true,
        [ (0x0, 0xFFF, Heap, 0);
          (0x1000, 0x1FFF, HeapCommitted, 1);
          (0x2000, 0xFFFF, Heap, 0) ],
        3).
Proof. vm_compute. reflexivity. Qed.

Lemma seeded_allocator_ok : allocator_ok seeded_allocator.
Proof. split; [vm_compute; split; discriminate | vm_compute; reflexivity]. Qed.

Lemma Insert_splits_region_witness :
  exists before after tree' allocator',
    tree_iterate seeded_tree
      = before ++ mkKMemoryRegion 0x10000 0x1FFFF u64_max 0 3 :: after /\
    Insert seeded_tree seeded_allocator (0x10000 + 0x1000) 0x2000 7 1 0
      = Ok (true, tree', allocator') /\
    tree_iterate tree' =
      before
      ++ ((if 0 <? 0x1000
           then [mkKMemoryRegion 0x10000 (0x10000 + 0x1000 - 1) u64_max 0 3]
           else [])
          ++ [mkKMemoryRegion (0x10000 + 0x1000)
                (0x10000 + 0x1000 + 0x2000 - 1) u64_max 1 7]
          ++ (if 0x10000 + 0x1000 + 0x2000 <=? 0x1FFFF
              then [mkKMemoryRegion (0x10000 + 0x1000 + 0x2000) 0x1FFFF
                      u64_max 0 3]
              else []))
      ++ after /\
    num_regions allocator' = 3 + 2.
Proof.
  destruct (Insert_splits_region seeded_tree seeded_allocator
              0x10000 0x1FFFF u64_max 3 0 0x1000 0x2000 7 1)
    as [Hroom _].
  - exact seeded_tree_ok.
  - exact seeded_allocator_ok.
  - apply list_elem_of_In. simpl. auto.
  - split; vm_compute; split; discriminate.
  - lia.
  - lia.
  - lia.
  - destruct Hroom as (before & after & tree' & allocator' & E & HI & E' & _
                       & _ & _ & Hn).
    + vm_compute. discriminate.
    + exists before, after, tree', allocator'. auto.
Defined.

(** ** The recoverable failure of [Insert] *)

Lemma FindModifiable_Some (tree : TreeType) (address : Z) (found : KMemoryRegion) :
  FindModifiable tree address = Some found ->
  found ∈ tree_iterate tree /\ in_span found address.
Proof. intros H. apply tree_find_Some in H. exact H. Qed.

(** Once the containing region is found and its attributes are accepted,
    [Insert] does not answer [false]. *)
Lemma Insert_contained_not_false (tree tree' : TreeType)
    (allocator allocator' : KMemoryRegionAllocator)
    (address size type_id new_attr old_attr : Z) (found : KMemoryRegion) :
  FindModifiable tree address = Some found ->
  address + size <= GetLastAddress found + 1 ->
  Insert tree allocator address size type_id new_attr old_attr
    <> Ok (false, tree', allocator').
Proof.
  intros Hf Hc. unfold Insert. rewrite Hf.
  assert ((address + size <=? GetLastAddress found + 1) = true) as ->
    by (apply Z.leb_le; exact Hc).
  destruct (GetAttributes found =? old_attr); simpl; [| discriminate].
  destruct (GetAddress found <? address); simpl;
    repeat match goal with
           | |- context [Allocate ?a ?r] =>
               destruct (Allocate a r) as [[? ?] |]; simpl
           | |- context [if ?c then _ else _] => destruct c; simpl
           end;
    discriminate.
Qed.

(** C6: [Insert] returns [false] and leaves the tree and the allocator as
    they were whenever no stored region contains the range
    [address, address + size).  It is the one failure [Insert] reports to
    its caller: in an ordered tree and for a non-empty range, [false] is
    returned only in that case, and a containing region that does not carry
    [old_attr] is a fatal assertion. *)
Theorem Insert_false_when_not_contained (tree : TreeType)
    (allocator : KMemoryRegionAllocator)
    (address size type_id new_attr old_attr : Z) :
  ((forall r, r ∈ tree_iterate tree ->
      ~ (GetAddress r <= address /\ address + size <= GetLastAddress r + 1)) ->
   Insert tree allocator address size type_id new_attr old_attr
     = Ok (false, tree, allocator)) /\
  (tree_ok tree -> 0 < size ->
   forall tree' allocator',
     Insert tree allocator address size type_id new_attr old_attr
       = Ok (false, tree', allocator') ->
     tree' = tree /\ allocator' = allocator /\
     forall r, r ∈ tree_iterate tree ->
       ~ (GetAddress r <= address /\ address + size <= GetLastAddress r + 1)) /\
  (tree_ok tree -> 0 < size ->
   forall r, r ∈ tree_iterate tree ->
     GetAddress r <= address /\ address + size <= GetLastAddress r + 1 ->
     GetAttributes r <> old_attr ->
     Insert tree allocator address size type_id new_attr old_attr = Fatal).
Proof.
  split; [| split].
  - intros Hno. unfold Insert.
    destruct (FindModifiable tree address) as [found |] eqn:Hf; [| reflexivity].
    apply FindModifiable_Some in Hf as [Hin Hspan].
    destruct (Z.leb_spec (address + size) (GetLastAddress found + 1));
      [| reflexivity].
    exfalso. apply (Hno found Hin). unfold in_span in Hspan. lia.
  - intros Hok Hsize tree' allocator' HI.
    assert (forall r, r ∈ tree_iterate tree ->
              GetAddress r <= address /\
              address + size <= GetLastAddress r + 1 ->
              FindModifiable tree address = Some r) as Hcontains.
    { intros r Hr [H1 H2].
      assert (Find tree address = Some r) as Hr'.
      { apply Find_in_span; auto. unfold in_span. lia. }
      exact Hr'. }
    destruct (FindModifiable tree address) as [found |] eqn:Hf.
    + destruct (Z.le_gt_cases (address + size) (GetLastAddress found + 1))
        as [Hc | Hc].
      * exfalso.
        eapply (Insert_contained_not_false tree tree' allocator allocator');
          eauto.
      * unfold Insert in HI. rewrite Hf in HI.
        assert ((address + size <=? GetLastAddress found + 1) = false) as Hb
          by (apply Z.leb_gt; exact Hc).
        rewrite Hb in HI. injection HI as <- <-.
        split; [reflexivity |]. split; [reflexivity |].
        intros r Hr Hc'. pose proof (Hcontains r Hr Hc') as Hfr.
        injection Hfr as ->. lia.
    + unfold Insert in HI. rewrite Hf in HI. injection HI as <- <-.
      split; [reflexivity |]. split; [reflexivity |].
      intros r Hr Hc'. pose proof (Hcontains r Hr Hc'). discriminate.
  - intros Hok Hsize r Hr [H1 H2] Hattr.
    assert (Find tree address = Some r) as Hr'.
    { apply Find_in_span; auto. unfold in_span. lia. }
    unfold Insert, FindModifiable. unfold Find in Hr'. rewrite Hr'.
    assert ((address + size <=? GetLastAddress r + 1) = true) as ->
      by (apply Z.leb_le; lia).
    apply Z.eqb_neq in Hattr. rewrite Hattr. reflexivity.
Qed.

Lemma Insert_false_when_not_contained_witness :
  Insert seeded_tree seeded_allocator 0xF000 0x2000 7 1 0
    = Ok (false, seeded_tree, seeded_allocator) /\
  (forall tree' allocator',
     Insert seeded_tree seeded_allocator 0xF000 0x2000 7 1 0
       = Ok (false, tree', allocator') ->
     tree' = seeded_tree /\ allocator' = seeded_allocator /\
     forall r, r ∈ tree_iterate seeded_tree ->
       ~ (GetAddress r <= 0xF000 /\ 0xF000 + 0x2000 <= GetLastAddress r + 1)) /\
  Insert seeded_tree seeded_allocator 0x11000 0x2000 7 1 5 = Fatal.
Proof.
  destruct (Insert_false_when_not_contained seeded_tree seeded_allocator
              0xF000 0x2000 7 1 0) as (H1 & H2 & _).
  destruct (Insert_false_when_not_contained seeded_tree seeded_allocator
              0x11000 0x2000 7 1 5) as (_ & _ & H3).
  split; [| split].
  - apply H1.
    intros r Hr. apply list_elem_of_In in Hr. simpl in Hr.
    destruct Hr as [<- | [<- | [<- | []]]]; simpl; lia.
  - apply H2.
    + exact seeded_tree_ok.
    + lia.
  - apply (H3 seeded_tree_ok) with (r := KMemoryRegion4 0x10000 0x1FFFF 0 3).
    + lia.
    + apply list_elem_of_In. simpl. auto.
    + simpl. lia.
    + simpl. lia.
Defined.

(** ** Extents of a derivation *)

Section extents.
Variable type_id : Z.

Local Abbreviation derived := (derived_regions type_id).

Lemma derived_cons_true (it : KMemoryRegion) (l : list KMemoryRegion) :
  IsDerivedFrom it type_id = true -> derived (it :: l) = it :: derived l.
Proof. intros H. unfold derived_regions. rewrite filter_cons_True; auto. Qed.

Lemma derived_cons_false (it : KMemoryRegion) (l : list KMemoryRegion) :
  IsDerivedFrom it type_id = false -> derived (it :: l) = derived l.
Proof.
  intros H. unfold derived_regions. rewrite filter_cons_False; auto. congruence.
Qed.

(** The loop of [GetDerivedRegionExtents], from any starting extents. *)
Lemma foldl_extents_step (l : list KMemoryRegion) (e : DerivedRegionExtents) :
  foldl (extents_step type_id) e l =
    mkDerivedRegionExtents
      (match first_region e with
       | Some x => Some x
       | None => head (derived l)
       end)
      (match last (derived l) with
       | Some y => Some y
       | None => last_region e
       end).
Proof.
  revert e. induction l as [|it l IH]; intros e; simpl.
  - destruct e as [[?|] ?]; reflexivity.
  - rewrite IH. unfold extents_step.
    destruct (IsDerivedFrom it type_id) eqn:Hd.
    + rewrite (derived_cons_true _ _ Hd), last_cons. simpl.
      destruct (first_region e); simpl;
        destruct (last (derived l)); reflexivity.
    + rewrite (derived_cons_false _ _ Hd). reflexivity.
Qed.

Lemma FindFirstDerived_head (tree : TreeType) :
  FindFirstDerived tree type_id = head (derived (tree_iterate tree)).
Proof.
  unfold FindFirstDerived. induction (tree_iterate tree) as [|it l IH]; simpl.
  - reflexivity.
  - destruct (IsDerivedFrom it type_id) eqn:Hd.
    + rewrite (derived_cons_true _ _ Hd). reflexivity.
    + rewrite (derived_cons_false _ _ Hd). exact IH.
Qed.

Lemma FindLastDerived_last (tree : TreeType) :
  FindLastDerived tree type_id = last (derived (tree_iterate tree)).
Proof.
  unfold FindLastDerived.
  enough (forall l acc,
            foldl (fun region it =>
                     if IsDerivedFrom it type_id then Some it else region)
                  acc l =
            match last (derived l) with
            | Some y => Some y
            | None => acc
            end) as H.
  { rewrite H. destruct (last _); reflexivity. }
  induction l as [|it l IH]; intros acc; simpl; [reflexivity |].
  rewrite IH. destruct (IsDerivedFrom it type_id) eqn:Hd.
  - rewrite (derived_cons_true _ _ Hd), last_cons.
    destruct (last (derived l)); reflexivity.
  - rewrite (derived_cons_false _ _ Hd). reflexivity.
Qed.

Lemma derived_sorted (l : list KMemoryRegion) :
  StronglySorted region_below l -> StronglySorted region_below (derived l).
Proof.
  induction 1 as [|x l Hs IH Hx]; [constructor |].
  destruct (IsDerivedFrom x type_id) eqn:Hd.
  - rewrite (derived_cons_true _ _ Hd). constructor; [exact IH |].
    rewrite Forall_forall in *. intros y Hy. apply Hx.
    unfold derived_regions in Hy. apply list_elem_of_filter in Hy. tauto.
  - rewrite (derived_cons_false _ _ Hd). exact IH.
Qed.

(** In an ordered tree the first derived region starts lowest and the
    last derived region ends highest. *)
Lemma derived_bounds (l : list KMemoryRegion) (f la r : KMemoryRegion) :
  Forall region_wf l -> StronglySorted region_below l ->
  head (derived l) = Some f -> last (derived l) = Some la ->
  r ∈ l -> IsDerivedFrom r type_id = true ->
  GetAddress f <= GetAddress r /\ GetLastAddress r <= GetLastAddress la.
Proof.
  intros Hwf Hs Hf Hl Hr Hd.
  assert (r ∈ derived l) as Hrd by (apply list_elem_of_filter; auto).
  assert (forall x, x ∈ derived l -> region_wf x) as Hwfd.
  { intros x Hx. apply list_elem_of_filter in Hx as [_ Hx].
    rewrite Forall_forall in Hwf. auto. }
  apply derived_sorted in Hs. split.
  - apply head_Some in Hf as [l' E]. rewrite E in Hs, Hrd.
    apply StronglySorted_cons in Hs as [Hx _]. rewrite Forall_forall in Hx.
    apply elem_of_cons in Hrd as [-> | Hrd]; [lia |].
    assert (region_wf f) as Hw
      by (apply Hwfd; rewrite E; apply elem_of_cons; auto).
    apply Hx in Hrd. unfold region_below, region_wf in *. lia.
  - apply last_Some in Hl as [l' E]. rewrite E in Hs, Hrd.
    apply StronglySorted_app in Hs as (Hx & _ & _).
    apply elem_of_app in Hrd as [Hrd | Hrd].
    + assert (region_wf la) as Hw
        by (apply Hwfd; rewrite E; apply elem_of_app; right;
            apply list_elem_of_singleton; reflexivity).
      specialize (Hx r la Hrd).
      unfold region_below, region_wf in *.
      assert (GetLastAddress r < GetAddress la)
        by (apply Hx; apply list_elem_of_singleton; reflexivity).
      lia.
    + apply list_elem_of_singleton in Hrd as ->. lia.
Qed.

(** C7: [GetDerivedRegionExtents] trips a fatal assertion when no stored
    region is derived from [type_id]; otherwise it returns the first and
    the last derived region of the tree's address order, whose accessors
    give the address of the first and the last address of the last.  In an
    ordered tree no derived region starts below the first or ends above
    the last. *)
Theorem GetDerivedRegionExtents_first_last (tree : TreeType) :
  ((forall r, r ∈ tree_iterate tree -> IsDerivedFrom r type_id = false) ->
     GetDerivedRegionExtents tree type_id = Fatal) /\
  ((exists r, r ∈ tree_iterate tree /\ IsDerivedFrom r type_id = true) ->
     exists e f la,
       GetDerivedRegionExtents tree type_id = Ok e /\
       first_region e = Some f /\ last_region e = Some la /\
       head (derived_regions type_id (tree_iterate tree)) = Some f /\
       last (derived_regions type_id (tree_iterate tree)) = Some la /\
       FindFirstDerived tree type_id = Some f /\
       FindLastDerived tree type_id = Some la /\
       DerivedRegionExtents_GetAddress e = Some (GetAddress f) /\
       DerivedRegionExtents_GetLastAddress e = Some (GetLastAddress la) /\
       (tree_ok tree ->
        forall r, r ∈ tree_iterate tree -> IsDerivedFrom r type_id = true ->
          GetAddress f <= GetAddress r /\
          GetLastAddress r <= GetLastAddress la)).
Proof.
    unfold GetDerivedRegionExtents. simpl.
  rewrite foldl_extents_step. simpl. split.
  - intros Hno.
    assert (derived (tree_iterate tree) = []) as ->; [| reflexivity].
    apply elem_of_nil_inv. intros x Hx.
    apply list_elem_of_filter in Hx as [Hx1 Hx2].
    apply Hno in Hx2. congruence.
  - intros (r & Hr & Hd).
    assert (r ∈ derived (tree_iterate tree)) as Hrd
      by (apply list_elem_of_filter; auto).
    destruct (head (derived (tree_iterate tree))) as [f |] eqn:Hf.
    2: { apply head_None in Hf. rewrite Hf in Hrd.
         apply elem_of_nil in Hrd. contradiction. }
    destruct (last (derived (tree_iterate tree))) as [la |] eqn:Hl.
    2: { apply last_None in Hl. rewrite Hl in Hrd.
         apply elem_of_nil in Hrd. contradiction. }
    simpl. eexists _, f, la. split; [reflexivity |].
    rewrite FindFirstDerived_head, FindLastDerived_last.
    repeat (split; [solve [auto] |]).
    intros [Hwf Hs] r' Hr' Hd'. eapply derived_bounds; eauto.
Qed.
End extents.

Lemma GetDerivedRegionExtents_first_last_witness :
  GetDerivedRegionExtents seeded_tree 4 = Fatal /\
  exists e f la,
    GetDerivedRegionExtents seeded_tree 2 = Ok e /\
    first_region e = Some f /\ last_region e = Some la /\
    DerivedRegionExtents_GetAddress e = Some 0x10000 /\
    DerivedRegionExtents_GetLastAddress e = Some 0x2FFFF /\
    (forall r, r ∈ tree_iterate seeded_tree -> IsDerivedFrom r 2 = true ->
       GetAddress f <= GetAddress r /\ GetLastAddress r <= GetLastAddress la).
Proof.
  split.
  - apply (GetDerivedRegionExtents_first_last 4 seeded_tree).
    intros r Hr. apply list_elem_of_In in Hr. simpl in Hr.
    destruct Hr as [<- | [<- | [<- | []]]]; reflexivity.
  - destruct (GetDerivedRegionExtents_first_last 2 seeded_tree) as [_ H].
    destruct H as (e & f & la & He & Hf & Hl & _ & _ & _ & _ & Ha & Hla & Hb).
    + exists (KMemoryRegion4 0x10000 0x1FFFF 0 3). split; [| reflexivity].
      apply list_elem_of_In. simpl. auto.
    + exists e, f, la. vm_compute in He. injection He as <-.
      repeat (split; [solve [auto] |]).
      apply Hb. exact seeded_tree_ok.
Defined.

(** ** The allocator *)

(** One call with a free slot left: the region is built in the next free
    slot and the count goes up by one. *)
Lemma Allocate_of_next (capacity : Z) (done : list KMemoryRegion)
    (args : KMemoryRegion) :
  0 <= capacity <= u64_max ->
  Z.of_nat (length done) < capacity ->
  Allocate_of capacity
    (mkKMemoryRegionAllocator
       (done ++ replicate (Z.to_nat capacity - length done) KMemoryRegion0)
       (Z.of_nat (length done))) args =
  Ok (length done,
      mkKMemoryRegionAllocator
        ((done ++ [args])
         ++ replicate (Z.to_nat capacity - length (done ++ [args])) KMemoryRegion0)
        (Z.of_nat (length (done ++ [args])))).
Proof.
  intros Hc Hlt. unfold Allocate_of. simpl.
  assert ((Z.of_nat (length done) <? capacity) = true) as ->
    by (apply Z.ltb_lt; exact Hlt).
  simpl. rewrite Nat2Z.id.
  assert (<[length done := args]>
            (done ++ replicate (Z.to_nat capacity - length done) KMemoryRegion0)
          = (done ++ [args])
            ++ replicate (Z.to_nat capacity - length (done ++ [args]))
                 KMemoryRegion0) as ->.
  { rewrite insert_app_r_alt by lia. rewrite Nat.sub_diag.
    destruct (Z.to_nat capacity - length done)%nat as [|m] eqn:Hm;
      [exfalso; lia |].
    simpl. rewrite <- app_assoc. simpl. do 3 f_equal.
    rewrite length_app. simpl. lia. }
  assert (u64 (Z.of_nat (length done) + 1)
          = Z.of_nat (length (done ++ [args]))) as ->.
  { unfold u64, u64_max in *. rewrite Z.mod_small by lia.
    rewrite length_app. simpl. lia. }
  reflexivity.
Qed.

Lemma Allocate_of_Ok (capacity : Z) (self : KMemoryRegionAllocator)
    (args : KMemoryRegion) :
  capacity <= u64_max ->
  0 <= num_regions self < capacity ->
  Allocate_of capacity self args =
  Ok (Z.to_nat (num_regions self),
      mkKMemoryRegionAllocator
        (<[Z.to_nat (num_regions self) := args]> (region_heap self))
        (num_regions self + 1)).
Proof.
  intros Hc Hlt. unfold Allocate_of.
  assert ((num_regions self <? capacity) = true) as ->
    by (apply Z.ltb_lt; lia).
  simpl. unfold u64, u64_max in *. rewrite Z.mod_small by lia. reflexivity.
Qed.

(** One call with no free slot left is fatal. *)
Lemma Allocate_of_full (capacity : Z) (self : KMemoryRegionAllocator)
    (args : KMemoryRegion) :
  capacity <= num_regions self -> Allocate_of capacity self args = Fatal.
Proof.
  intros H. unfold Allocate_of.
  assert ((num_regions self <? capacity) = false) as ->
    by (apply Z.ltb_ge; exact H).
  reflexivity.
Qed.

Lemma Allocate_all_from (capacity : Z) (args done : list KMemoryRegion) :
  0 <= capacity <= u64_max ->
  Z.of_nat (length done + length args) <= capacity ->
  Allocate_all capacity
    (mkKMemoryRegionAllocator
       (done ++ replicate (Z.to_nat capacity - length done) KMemoryRegion0)
       (Z.of_nat (length done))) args =
  Ok (seq (length done) (length args),
      mkKMemoryRegionAllocator
        ((done ++ args)
         ++ replicate (Z.to_nat capacity - length (done ++ args)) KMemoryRegion0)
        (Z.of_nat (length (done ++ args)))).
Proof.
  intros Hc. revert done.
  induction args as [|a args IH]; intros done Hlen; simpl.
  - rewrite app_nil_r. reflexivity.
  - simpl in Hlen. rewrite Allocate_of_next by lia. simpl.
    rewrite IH by (rewrite length_app; simpl; lia). simpl.
    rewrite <- !app_assoc. simpl.
    rewrite length_app. simpl. rewrite Nat.add_1_r. reflexivity.
Qed.

Lemma Allocate_all_app (capacity : Z) (self self' : KMemoryRegionAllocator)
    (args : list KMemoryRegion) (slots : list nat) (extra : KMemoryRegion) :
  Allocate_all capacity self args = Ok (slots, self') ->
  Allocate_of capacity self' extra = Fatal ->
  Allocate_all capacity self (args ++ [extra]) = Fatal.
Proof.
  revert self slots.
  induction args as [|a args IH]; intros self slots H Hf; simpl in *.
  - injection H as <- <-. rewrite Hf. reflexivity.
  - destruct (Allocate_of capacity self a) as [[slot self1] |]; simpl in *;
      [| reflexivity].
    destruct (Allocate_all capacity self1 args) as [[slots1 self2] |] eqn:E;
      simpl in *; [| discriminate].
    injection H as <- <-. rewrite (IH _ _ E Hf). reflexivity.
Qed.

(** C5: for an allocator of capacity [c], any run of at most [c] calls
    succeeds from the fresh allocator: call number [i] returns slot [i - 1],
    the region it constructs is stored there, and the count is the number of
    calls made.  With a free slot left the next call succeeds, fills the
    next free slot and raises the count by one; after [c] calls the next
    call is fatal. *)
Theorem Allocate_until_capacity (capacity : Z) (args : list KMemoryRegion)
    (extra : KMemoryRegion) :
  0 <= capacity <= u64_max ->
  Z.of_nat (length args) <= capacity ->
  exists self,
    Allocate_all capacity (KMemoryRegionAllocator_of capacity) args
      = Ok (seq 0 (length args), self) /\
    num_regions self = Z.of_nat (length args) /\
    region_heap self =
      args ++ replicate (Z.to_nat capacity - length args) KMemoryRegion0 /\
    (Z.of_nat (length args) < capacity ->
       exists self',
         Allocate_of capacity self extra = Ok (length args, self') /\
         num_regions self' = num_regions self + 1 /\
         region_heap self' !! length args = Some extra /\
         (forall i, i <> length args ->
            region_heap self' !! i = region_heap self !! i)) /\
    (Z.of_nat (length args) = capacity ->
       Allocate_of capacity self extra = Fatal /\
       Allocate_all capacity (KMemoryRegionAllocator_of capacity)
         (args ++ [extra]) = Fatal).
Proof.
  intros Hc Hlen.
  pose proof (Allocate_all_from capacity args [] Hc) as Hall.
  simpl in Hall. rewrite Nat.sub_0_r in Hall. specialize (Hall Hlen).
  eexists. split; [exact Hall |]. simpl.
  split; [reflexivity |]. split; [reflexivity |]. split.
  - intros Hlt. rewrite Allocate_of_Ok by (simpl; lia). simpl.
    rewrite Nat2Z.id. eexists.
    split; [reflexivity |]. simpl. split; [reflexivity | split].
    + apply list_lookup_insert_eq.
      rewrite length_app, length_replicate. lia.
    + intros i Hi. apply list_lookup_insert_ne. auto.
  - intros Heq.
    assert (Allocate_of capacity
              (mkKMemoryRegionAllocator
                 (args ++ replicate (Z.to_nat capacity - length args)
                            KMemoryRegion0)
                 (Z.of_nat (length args))) extra = Fatal) as Hf
      by (apply Allocate_of_full; simpl; lia).
    split; [exact Hf |].
    eapply Allocate_all_app; eauto.
Qed.

(** The scenario of the spec: capacity 2, three calls. *)
Lemma Allocate_until_capacity_witness :
  Allocate_all 2 (KMemoryRegionAllocator_of 2)
    [KMemoryRegion4 0x0 0xFFF 0 1; KMemoryRegion4 0x1000 0x1FFF 0 1;
     KMemoryRegion4 0x2000 0x2FFF 0 1] = Fatal.
Proof.
  destruct (Allocate_until_capacity 2
              [KMemoryRegion4 0x0 0xFFF 0 1; KMemoryRegion4 0x1000 0x1FFF 0 1]
              (KMemoryRegion4 0x2000 0x2FFF 0 1))
    as (self & _ & _ & _ & _ & Hfull).
  - unfold u64_max. lia.
  - simpl. lia.
  - apply Hfull. reflexivity.
Defined.

(** The heap of the header has [MaxMemoryRegions = 200] slots: 200 calls
    fill it and call 201 is fatal. *)
Example Allocate_MaxMemoryRegions :
  let full :=
    mkKMemoryRegionAllocator (replicate 200 (KMemoryRegion4 0 0 0 0)) 200 in
  Allocate_all MaxMemoryRegions KMemoryRegionAllocator0
    (replicate 200 (KMemoryRegion4 0 0 0 0)) = Ok (seq 0 200, full) /\
  Allocate full (KMemoryRegion4 0 0 0 0) = Fatal /\
  Allocate_all MaxMemoryRegions KMemoryRegionAllocator0
    (replicate 201 (KMemoryRegion4 0 0 0 0)) = Fatal.
Proof. vm_compute. repeat split. Qed.

(** ** Placement with guard space *)

Lemma align_up_spec (a alignment : Z) :
  0 < alignment ->
  a <= align_up a alignment /\ align_up a alignment mod alignment = 0.
Proof.
  intros H. unfold align_up. split.
  - pose proof (Z.div_mod (a + alignment - 1) alignment ltac:(lia)) as Hd.
    pose proof (Z.mod_pos_bound (a + alignment - 1) alignment H) as Hm.
    lia.
  - apply Z_mod_mult.
Qed.

(** Every offset counted for a region is aligned and leaves room for
    [size] addresses inside the region. *)
Lemma aligned_offsets_spec (r : KMemoryRegion)
    (size alignment type_id index : Z) :
  0 < alignment ->
  0 <= index < aligned_offsets r size alignment type_id ->
  let c := align_up (GetAddress r) alignment + index * alignment in
  IsDerivedFrom r type_id = true /\
  c mod alignment = 0 /\
  GetAddress r <= c /\
  c + Z.max size 1 - 1 <= GetLastAddress r.
Proof.
  intros Hal Hi c. unfold aligned_offsets in Hi.
  destruct (align_up_spec (GetAddress r) alignment Hal) as [Hlo Hmod].
  destruct (IsDerivedFrom r type_id); simpl in Hi; [| lia].
  destruct (Z.leb_spec (align_up (GetAddress r) alignment)
              (GetLastAddress r - Z.max size 1 + 1)) as [Hle | Hgt]; [| lia].
  split; [reflexivity |]. split; [| split].
  - subst c. rewrite Z_mod_plus_full. exact Hmod.
  - subst c. nia.
  - subst c.
    pose proof (Z.mul_div_le
                  (GetLastAddress r - Z.max size 1 + 1
                   - align_up (GetAddress r) alignment) alignment Hal) as Hd.
    nia.
Qed.

Lemma nth_aligned_offset_spec (regions : list KMemoryRegion)
    (size alignment type_id index c : Z) :
  0 < alignment -> 0 <= index ->
  nth_aligned_offset regions size alignment type_id index = Some c ->
  exists r, r ∈ regions /\
    IsDerivedFrom r type_id = true /\
    c mod alignment = 0 /\
    GetAddress r <= c /\
    c + Z.max size 1 - 1 <= GetLastAddress r.
Proof.
  intros Hal. revert index.
  induction regions as [|r rest IH]; intros index Hi H; simpl in H;
    [discriminate |].
  destruct (Z.ltb_spec index (aligned_offsets r size alignment type_id))
    as [Hlt | Hge].
  - injection H as <-. exists r. split; [apply elem_of_cons; auto |].
    apply aligned_offsets_spec; auto.
  - apply IH in H as (r' & Hr' & Hrest); [| lia].
    exists r'. split; [apply elem_of_cons; auto | exact Hrest].
Qed.

(** The placement [GetRandomAlignedRegion] returns is aligned and lies,
    with the [size] addresses after it, inside one region derived from the
    type. *)
Lemma GetRandomAlignedRegion_spec (random : Z) (tree : TreeType)
    (size alignment type_id c : Z) :
  0 < alignment ->
  GetRandomAlignedRegion random tree size alignment type_id = Ok c ->
  exists r, r ∈ tree_iterate tree /\
    IsDerivedFrom r type_id = true /\
    c mod alignment = 0 /\
    GetAddress r <= c /\
    c + Z.max size 1 - 1 <= GetLastAddress r.
Proof.
  intros Hal. unfold GetRandomAlignedRegion.
  destruct (Z.ltb_spec 0
              (total_aligned_offsets (tree_iterate tree) size alignment type_id))
    as [Htot | Htot]; simpl; [| discriminate].
  destruct (nth_aligned_offset _ _ _ _ _) as [c' |] eqn:Hn; simpl;
    [| discriminate].
  intros H. injection H as <-.
  eapply nth_aligned_offset_spec; eauto.
  apply Z.mod_pos_bound. exact Htot.
Qed.

Lemma GetRandomAlignedRegionWithGuard_Ok
    (GetRandomAlignedRegion : TreeType -> Z -> Z -> Z -> Result Z)
    (tree : TreeType) (size alignment type_id guard_size r : Z) :
  GetRandomAlignedRegionWithGuard GetRandomAlignedRegion tree size alignment
    type_id guard_size = Ok r ->
  exists r0,
    GetRandomAlignedRegion tree (u64 (size + 2 * guard_size)) alignment type_id
      = Ok r0 /\
    r = u64 (r0 + guard_size).
Proof.
  unfold GetRandomAlignedRegionWithGuard.
  destruct (GetRandomAlignedRegion _ _ _ _) as [r0 |]; simpl; [| discriminate].
  intros H. injection H as <-. eauto.
Qed.

(** C4 as stated fails.  With alignment [0x1000] and a guard of [0x800] the
    widened request is placed at the aligned address [0x1000] and the call
    returns [0x1800], which is not aligned.  And when [size + 2 * guard]
    exceeds 64 bits the request wraps to a small size: the call succeeds,
    but the flanked range reaches beyond every region. *)
Lemma GetRandomAlignedRegionWithGuard_unaligned_counterexample :
  (GetRandomAlignedRegionWithGuard (GetRandomAlignedRegion 1) seeded_tree
     0x1000 0x1000 1 0x800 = Ok 0x1800 /\
   0x1800 mod 0x1000 <> 0) /\
  (GetRandomAlignedRegionWithGuard (GetRandomAlignedRegion 0) seeded_tree
     (2 ^ 64 - 0x1000) 0x1000 1 0x1000 = Ok 0x1000 /\
   ~ within_derived seeded_tree 1
       (0x1000 - 0x1000) (0x1000 + (2 ^ 64 - 0x1000) + 0x1000)).
Proof.
  split; split.
  - vm_compute. reflexivity.
  - vm_compute. discriminate.
  - vm_compute. reflexivity.
  - intros H. destruct (H 0x30000) as (r & Hr & _ & Hs).
    + lia.
    + apply list_elem_of_In in Hr. simpl in Hr. unfold in_span in Hs.
      destruct Hr as [<- | [<- | [<- | []]]]; simpl in Hs; lia.
Qed.

(** C4, amended: let the regions of the tree have 64-bit bounds, the
    alignment be positive and [size + 2 * guard_size] fit in 64 bits.  A
    successful [GetRandomAlignedRegionWithGuard] returns the result [r0] of
    [GetRandomAlignedRegion] for [size + 2 * guard_size] plus [guard_size];
    the flanked range [r - guard_size, r + size + guard_size) lies within
    the regions derived from the type; [r - guard_size] is aligned, and [r]
    itself is aligned when [guard_size] is a multiple of the alignment. *)
Theorem GetRandomAlignedRegionWithGuard_bounds (random : Z) (tree : TreeType)
    (size alignment type_id guard_size r : Z) :
  Forall region_u64 (tree_iterate tree) ->
  0 < alignment ->
  is_u64 size -> is_u64 guard_size ->
  size + 2 * guard_size <= u64_max ->
  GetRandomAlignedRegionWithGuard (GetRandomAlignedRegion random) tree size
    alignment type_id guard_size = Ok r ->
  exists r0,
    GetRandomAlignedRegion random tree (size + 2 * guard_size) alignment
      type_id = Ok r0 /\
    r = r0 + guard_size /\
    within_derived tree type_id (r - guard_size) (r + size + guard_size) /\
    (r - guard_size) mod alignment = 0 /\
    (guard_size mod alignment = 0 -> r mod alignment = 0).
Proof.
  intros Hu Hal Hs Hg Hsum H.
  apply GetRandomAlignedRegionWithGuard_Ok in H as (r0 & H0 & Hr).
  unfold is_u64 in Hs, Hg.
  rewrite (u64_id (size + 2 * guard_size)) in H0 by (unfold is_u64; lia).
  destruct (GetRandomAlignedRegion_spec _ _ _ _ _ _ Hal H0)
    as (reg & Hreg & Hd & Hmod & Hlo & Hhi).
  rewrite Forall_forall in Hu. destruct (Hu reg Hreg) as [Ua Ul].
  unfold is_u64 in Ua, Ul.
  assert (r = r0 + guard_size) as Er.
  { rewrite Hr. apply u64_id. unfold is_u64. lia. }
  exists r0. split; [exact H0 |]. split; [exact Er |]. split; [| split].
  - intros a Ha. exists reg. split; [exact Hreg |]. split; [exact Hd |].
    unfold in_span. lia.
  - rewrite Er. replace (r0 + guard_size - guard_size) with r0 by lia.
    exact Hmod.
  - intros Hgal. rewrite Er, Zplus_mod, Hmod, Hgal. simpl.
    apply Zmod_0_l.
Qed.

Lemma seeded_tree_region_u64 : Forall region_u64 (tree_iterate seeded_tree).
Proof.
  repeat constructor; unfold is_u64, u64_max; simpl; lia.
Qed.

Lemma GetRandomAlignedRegionWithGuard_bounds_witness :
  exists r0,
    GetRandomAlignedRegion 1 seeded_tree (0x1000 + 2 * 0x1000) 0x1000 1
      = Ok r0 /\
    0x2000 = r0 + 0x1000 /\
    within_derived seeded_tree 1 (0x2000 - 0x1000) (0x2000 + 0x1000 + 0x1000) /\
    (0x2000 - 0x1000) mod 0x1000 = 0 /\
    0x2000 mod 0x1000 = 0.
Proof.
  destruct (GetRandomAlignedRegionWithGuard_bounds 1 seeded_tree
              0x1000 0x1000 1 0x1000 0x2000)
    as (r0 & H0 & Hr & Hw & Ha & Hb).
  - exact seeded_tree_region_u64.
  - lia.
  - unfold is_u64, u64_max. lia.
  - unfold is_u64, u64_max. lia.
  - unfold u64_max. lia.
  - vm_compute. reflexivity.
  - exists r0. repeat (split; [assumption |]). apply Hb. reflexivity.
Defined.

(** * Further properties of the header *)

(** ** Type attributes *)

Lemma lor_absorb_l (ty attr u : Z) :
  Z.lor ty u = ty -> Z.lor (Z.lor ty attr) u = Z.lor ty attr.
Proof.
  intros H. rewrite <- Z.lor_assoc, (Z.lor_comm attr u), Z.lor_assoc, H.
  reflexivity.
Qed.

(** X1: after [SetTypeAttribute attr] the region has the type attribute
    [attr]; every type attribute and every derivation it had before is
    kept; bounds, pair address and attributes are untouched. *)
Theorem SetTypeAttribute_adds_attribute (r : KMemoryRegion) (attr : Z) :
  HasTypeAttribute (SetTypeAttribute r attr) attr = true /\
  (forall u, HasTypeAttribute r u = true ->
             HasTypeAttribute (SetTypeAttribute r attr) u = true) /\
  (forall u, IsDerivedFrom r u = true ->
             IsDerivedFrom (SetTypeAttribute r attr) u = true) /\
  GetAddress (SetTypeAttribute r attr) = GetAddress r /\
  GetLastAddress (SetTypeAttribute r attr) = GetLastAddress r /\
  GetPairAddress (SetTypeAttribute r attr) = GetPairAddress r /\
  GetAttributes (SetTypeAttribute r attr) = GetAttributes r.
Proof.
  split; [| split; [| split]].
  - unfold HasTypeAttribute, SetTypeAttribute, GetType. simpl.
    apply Z.eqb_eq. rewrite <- Z.lor_assoc, Z.lor_diag. reflexivity.
  - intros u. unfold HasTypeAttribute, SetTypeAttribute, GetType. simpl.
    rewrite !Z.eqb_eq. apply lor_absorb_l.
  - intros u. unfold IsDerivedFrom, SetTypeAttribute, GetType. simpl.
    rewrite !Z.eqb_eq. apply lor_absorb_l.
  - repeat split.
Qed.

Lemma SetTypeAttribute_adds_attribute_witness :
  HasTypeAttribute (SetTypeAttribute (KMemoryRegion4 0 4095 0 5) 8) 4 = true /\
  IsDerivedFrom (SetTypeAttribute (KMemoryRegion4 0 4095 0 5) 8) 1 = true.
Proof.
  split.
  - apply (SetTypeAttribute_adds_attribute (KMemoryRegion4 0 4095 0 5) 8).
    reflexivity.
  - apply (SetTypeAttribute_adds_attribute (KMemoryRegion4 0 4095 0 5) 8).
    reflexivity.
Defined.

(** X2: [SetTypeAttribute attr] is the retyping to [type_id | attr], which
    [SetType] always accepts; it changes nothing exactly when the region
    already has the type attribute. *)
Theorem SetTypeAttribute_is_SetType (r : KMemoryRegion) (attr : Z) :
  SetType r (Z.lor (GetType r) attr) = Ok (SetTypeAttribute r attr) /\
  (SetTypeAttribute r attr = r <-> HasTypeAttribute r attr = true).
Proof.
  split.
  - apply SetType_Ok. apply CanDerive_spec.
    rewrite Z.lor_assoc, Z.lor_diag. reflexivity.
  - unfold HasTypeAttribute, SetTypeAttribute, GetType. rewrite Z.eqb_eq.
    destruct r as [a la p at' ty]. simpl. split.
    + intros H. injection H. auto.
    + intros H. rewrite H. reflexivity.
Qed.

(** ** Retyping *)

(** X3: a region is both derived from [t] and able to derive [t] exactly
    when its type is [t]; [CanDerive] is [IsDerivedFrom] read from the
    other side. *)
Theorem IsDerivedFrom_CanDerive_exact (r : KMemoryRegion) (t : Z) :
  (IsDerivedFrom r t = true /\ CanDerive r t = true <-> GetType r = t) /\
  (forall a la p at', CanDerive r t =
     IsDerivedFrom (KMemoryRegion5 a la p at' t) (GetType r)).
Proof.
  split.
  - rewrite IsDerivedFrom_spec, CanDerive_spec. split.
    + intros [H1 H2]. congruence.
    + intros <-. rewrite Z.lor_diag. auto.
  - intros a la p at'. unfold CanDerive, IsDerivedFrom, GetType. simpl.
    rewrite Z.lor_comm. reflexivity.
Qed.

(** X4: retyping composes and never goes back.  Retyping to the current
    type succeeds and changes nothing; two successful retypings in a row
    are one retyping to the last type; after a successful retyping to a
    different type, retyping to the old type trips the assertion. *)
Theorem SetType_monotone (r : KMemoryRegion) (t u : Z) (r1 r2 : KMemoryRegion) :
  SetType r (GetType r) = Ok r /\
  (SetType r t = Ok r1 -> SetType r1 u = Ok r2 -> SetType r u = Ok r2) /\
  (SetType r t = Ok r1 -> t <> GetType r -> SetType r1 (GetType r) = Fatal).
Proof.
  split; [| split].
  - rewrite SetType_Ok by (apply CanDerive_spec; apply Z.lor_diag).
    destruct r; reflexivity.
  - intros H1 H2.
    destruct (CanDerive r t) eqn:Ct;
      [rewrite (SetType_Ok _ _ Ct) in H1
      | rewrite (SetType_Fatal _ _ Ct) in H1; discriminate].
    injection H1 as <-.
    destruct (CanDerive
                (mkKMemoryRegion (address r) (last_address r) (pair_address r)
                   (attributes r) t) u) eqn:Cu;
      [rewrite (SetType_Ok _ _ Cu) in H2
      | rewrite (SetType_Fatal _ _ Cu) in H2; discriminate].
    injection H2 as <-. simpl.
    apply SetType_Ok. apply CanDerive_spec.
    apply CanDerive_spec in Ct, Cu. unfold GetType in *. simpl in Cu.
    rewrite <- Cu at 1. rewrite Z.lor_assoc, Ct. exact Cu.
  - intros H1 Hne.
    destruct (CanDerive r t) eqn:Ct;
      [rewrite (SetType_Ok _ _ Ct) in H1
      | rewrite (SetType_Fatal _ _ Ct) in H1; discriminate].
    injection H1 as <-. apply SetType_Fatal.
    apply not_true_is_false. rewrite CanDerive_spec.
    apply CanDerive_spec in Ct. unfold GetType in *. simpl.
    rewrite Z.lor_comm, Ct. exact Hne.
Qed.

Lemma SetType_monotone_witness :
  SetType (KMemoryRegion4 0 4095 0 1) 7 = Ok (KMemoryRegion4 0 4095 0 7) /\
  SetType (KMemoryRegion4 0 4095 0 3) 1 = Fatal.
Proof.
  split.
  - apply (SetType_monotone (KMemoryRegion4 0 4095 0 1) 3 7
             (KMemoryRegion4 0 4095 0 3) (KMemoryRegion4 0 4095 0 7));
      reflexivity.
  - apply (SetType_monotone (KMemoryRegion4 0 4095 0 1) 3 7
             (KMemoryRegion4 0 4095 0 3) (KMemoryRegion4 0 4095 0 7)).
    + reflexivity.
    + discriminate.
Defined.

(** ** Size and end address *)

Lemma u64_small (z : Z) : 0 <= z <= u64_max -> u64 z = z.
Proof. unfold u64, u64_max. intros H. apply Z.mod_small. lia. Qed.

Lemma u64_neg (z : Z) : 0 < z <= u64_max -> u64 (0 - z) = 2 ^ 64 - z.
Proof.
  unfold u64, u64_max. intros H.
  replace (0 - z) with (2 ^ 64 - z + (-1) * 2 ^ 64) by lia.
  rewrite Z_mod_plus_full. apply Z.mod_small. lia.
Qed.

Lemma u64_wrap : u64 (u64_max + 1) = 0.
Proof. vm_compute. reflexivity. Qed.

(** The size [GetSize] computes from 64-bit bounds. *)
Lemma size_of_bounds (a la : Z) :
  is_u64 a -> is_u64 la -> a <= la ->
  u64 (u64 (la + 1) - a) =
    if (a =? 0) && (la =? u64_max) then 0 else la - a + 1.
Proof.
  unfold is_u64. intros Ha Hla Hle.
  destruct (Z.eq_dec la u64_max) as [-> | Hne].
  - rewrite u64_wrap, Z.eqb_refl, andb_true_r.
    destruct (Z.eqb_spec a 0) as [-> | Ha0]; [reflexivity |].
    rewrite u64_neg by lia. unfold u64_max. lia.
  - assert ((la =? u64_max) = false) as -> by (apply Z.eqb_neq; exact Hne).
    rewrite andb_false_r.
    rewrite (u64_small (la + 1)) by lia.
    rewrite u64_small by lia. lia.
Qed.

(** X5: for a region with 64-bit bounds and [address <= last_address],
    [GetSize] is [last_address - address + 1], also when the region ends at
    [2^64 - 1] and its end address wraps to zero; only the region that spans
    the whole 64-bit space has size [0].  Below [2^64 - 1] the end address
    is [last_address + 1]. *)
Theorem GetSize_of_span (r : KMemoryRegion) :
  region_u64 r -> region_wf r ->
  GetSize r =
    (if (GetAddress r =? 0) && (GetLastAddress r =? u64_max)
     then 0 else GetLastAddress r - GetAddress r + 1) /\
  (GetLastAddress r < u64_max -> GetEndAddress r = GetLastAddress r + 1) /\
  (GetSize r = 0 <-> GetAddress r = 0 /\ GetLastAddress r = u64_max).
Proof.
  intros [Ha Hla] Hwf. unfold region_wf in Hwf.
  assert (GetSize r =
            if (GetAddress r =? 0) && (GetLastAddress r =? u64_max)
            then 0 else GetLastAddress r - GetAddress r + 1) as Hs
    by (apply size_of_bounds; assumption).
  split; [exact Hs |]. split.
  - intros Hlt. unfold GetEndAddress. apply u64_small.
    unfold is_u64 in *. lia.
  - rewrite Hs.
    destruct (Z.eqb_spec (GetAddress r) 0);
      destruct (Z.eqb_spec (GetLastAddress r) u64_max); simpl; lia.
Qed.

Lemma GetSize_of_span_witness :
  GetSize (KMemoryRegion4 0x1000 u64_max 0 1) = u64_max - 0x1000 + 1 /\
  GetEndAddress (KMemoryRegion4 0x1000 0x1FFF 0 1) = 0x1FFF + 1.
Proof.
  split.
  - apply (GetSize_of_span (KMemoryRegion4 0x1000 u64_max 0 1)).
    + vm_compute. repeat split; discriminate.
    + vm_compute. discriminate.
  - apply (GetSize_of_span (KMemoryRegion4 0x1000 0x1FFF 0 1)).
    + vm_compute. repeat split; discriminate.
    + vm_compute. discriminate.
    + vm_compute. reflexivity.
Defined.

(** ** The compare rule as an order *)

(** X6: two well-formed regions overlap exactly when one of them compares
    equal to the other; when one lies entirely below the other, [Compare]
    answers [-1] one way round and [1] the other. *)
Theorem Compare_equal_iff_overlap (r1 r2 : KMemoryRegion) :
  region_wf r1 -> region_wf r2 ->
  (Compare r1 r2 = 0 \/ Compare r2 r1 = 0 <-> spans_overlap r1 r2) /\
  (region_below r1 r2 -> Compare r1 r2 = -1 /\ Compare r2 r1 = 1) /\
  (~ spans_overlap r1 r2 -> Compare r1 r2 = - Compare r2 r1).
Proof.
  unfold region_wf, region_below, spans_overlap, in_span, Compare.
  intros H1 H2.
  destruct (Z.ltb_spec (GetAddress r1) (GetAddress r2));
    destruct (Z.leb_spec (GetAddress r1) (GetLastAddress r2));
    destruct (Z.ltb_spec (GetAddress r2) (GetAddress r1));
    destruct (Z.leb_spec (GetAddress r2) (GetLastAddress r1));
    (split; [split | split]);
    try lia;
    try (intros _; exists (GetAddress r1); lia);
    try (intros _; exists (GetAddress r2); lia);
    try (intros [a Ha]; lia);
    try (intros Hno; exfalso; apply Hno; exists (GetAddress r1); lia);
    try (intros Hno; exfalso; apply Hno; exists (GetAddress r2); lia).
Qed.

Lemma Compare_equal_iff_overlap_witness :
  (Compare (KMemoryRegion4 0x0 0xFFFF 0 1) (KMemoryRegion4 0x8000 0x1FFFF 0 3) = 0 \/
   Compare (KMemoryRegion4 0x8000 0x1FFFF 0 3) (KMemoryRegion4 0x0 0xFFFF 0 1) = 0) /\
  Compare (KMemoryRegion4 0x0 0xFFFF 0 1) (KMemoryRegion4 0x10000 0x1FFFF 0 3) = -1.
Proof.
  split.
  - apply (Compare_equal_iff_overlap (KMemoryRegion4 0x0 0xFFFF 0 1)
             (KMemoryRegion4 0x8000 0x1FFFF 0 3)).
    + unfold region_wf. simpl. lia.
    + unfold region_wf. simpl. lia.
    + exists 0x9000. unfold in_span. simpl. lia.
  - destruct (Compare_equal_iff_overlap (KMemoryRegion4 0x0 0xFFFF 0 1)
                (KMemoryRegion4 0x10000 0x1FFFF 0 3)) as (_ & Hb & _).
    + unfold region_wf. simpl. lia.
    + unfold region_wf. simpl. lia.
    + apply Hb. unfold region_below. simpl. lia.
Defined.

(** X7: the strict answers of [Compare] are transitive: below a region
    that is below a third is below the third, and likewise above. *)
Theorem Compare_transitive (r1 r2 r3 : KMemoryRegion) :
  (Compare r1 r2 = -1 -> Compare r2 r3 = -1 -> Compare r1 r3 = -1) /\
  (Compare r1 r2 = 1 -> Compare r2 r3 = 1 -> Compare r1 r3 = 1).
Proof.
  unfold Compare.
  destruct (Z.ltb_spec (GetAddress r1) (GetAddress r2));
    destruct (Z.leb_spec (GetAddress r1) (GetLastAddress r2));
    destruct (Z.ltb_spec (GetAddress r2) (GetAddress r3));
    destruct (Z.leb_spec (GetAddress r2) (GetLastAddress r3));
    destruct (Z.ltb_spec (GetAddress r1) (GetAddress r3));
    destruct (Z.leb_spec (GetAddress r1) (GetLastAddress r3));
    split; intros; try reflexivity; try discriminate; lia.
Qed.

Lemma Compare_transitive_witness :
  Compare (KMemoryRegion4 0x0 0xFFFF 0 1) (KMemoryRegion4 0x20000 0x2FFFF 0 2) = -1 /\
  Compare (KMemoryRegion4 0x20000 0x2FFFF 0 2) (KMemoryRegion4 0x0 0xFFFF 0 1) = 1.
Proof.
  split.
  - apply (Compare_transitive (KMemoryRegion4 0x0 0xFFFF 0 1)
             (KMemoryRegion4 0x10000 0x1FFFF 0 3)
             (KMemoryRegion4 0x20000 0x2FFFF 0 2)); reflexivity.
  - apply (Compare_transitive (KMemoryRegion4 0x20000 0x2FFFF 0 2)
             (KMemoryRegion4 0x10000 0x1FFFF 0 3)
             (KMemoryRegion4 0x0 0xFFFF 0 1)); reflexivity.
Defined.

(** X8: the setters of a region leave its key alone: after
    [SetPairAddress], [SetTypeAttribute] or a successful [SetType] the
    region compares with every other region as before, on either side, so
    a region changed in place keeps its position in the tree. *)
Theorem setters_keep_Compare (r x : KMemoryRegion) (p attr t : Z)
    (r' : KMemoryRegion) :
  (Compare (SetPairAddress r p) x = Compare r x /\
   Compare x (SetPairAddress r p) = Compare x r) /\
  (Compare (SetTypeAttribute r attr) x = Compare r x /\
   Compare x (SetTypeAttribute r attr) = Compare x r) /\
  (SetType r t = Ok r' ->
   Compare r' x = Compare r x /\ Compare x r' = Compare x r).
Proof.
  split; [| split]; try (split; reflexivity).
  intros H.
  destruct (CanDerive r t) eqn:Ct;
    [rewrite (SetType_Ok _ _ Ct) in H
    | rewrite (SetType_Fatal _ _ Ct) in H; discriminate].
  injection H as <-. split; reflexivity.
Qed.

Lemma setters_keep_Compare_witness :
  Compare (KMemoryRegion4 0x0 0xFFFF 0 3) (KMemoryRegion4 0x10000 0x1FFFF 0 3)
    = Compare (KMemoryRegion4 0x0 0xFFFF 0 1) (KMemoryRegion4 0x10000 0x1FFFF 0 3).
Proof.
  apply (setters_keep_Compare (KMemoryRegion4 0x0 0xFFFF 0 1)
           (KMemoryRegion4 0x10000 0x1FFFF 0 3) 0 0 3
           (KMemoryRegion4 0x0 0xFFFF 0 3)).
  reflexivity.
Defined.

(** ** Linear scans *)

(** A scan returns the first region that passes the test. *)
Lemma find_first {A : Type} (f : A -> bool) (l : list A) (x : A) :
  List.find f l = Some x ->
  exists l1 l2, l = l1 ++ x :: l2 /\ f x = true /\
                Forall (fun y => f y = false) l1.
Proof.
  induction l as [|y l IH]; simpl; [discriminate |].
  destruct (f y) eqn:Hy.
  - intros H. injection H as ->. exists [], l. auto.
  - intros H. apply IH in H as (l1 & l2 & -> & Hx & Hl1).
    exists (y :: l1), l2. auto.
Qed.

Lemma find_None {A : Type} (f : A -> bool) (l : list A) :
  List.find f l = None <-> forall x, x ∈ l -> f x = false.
Proof.
  induction l as [|y l IH]; simpl.
  - split; [| reflexivity]. intros _ x Hx. apply elem_of_nil in Hx. contradiction.
  - destruct (f y) eqn:Hy.
    + split; [discriminate |]. intros H.
      rewrite (H y) in Hy by (apply elem_of_cons; auto). discriminate.
    + rewrite IH. split.
      * intros H x Hx. apply elem_of_cons in Hx as [-> | Hx]; auto.
      * intros H x Hx. apply H. apply elem_of_cons. auto.
Qed.

(** X9: [FindByType] returns the first region, in the tree's order, whose
    type is exactly [type_id]: the regions before it have other types.  It
    returns null exactly when no stored region has that type. *)
Theorem FindByType_first_exact (tree : TreeType) (type_id : Z) :
  (forall r, FindByType tree type_id = Some r ->
     exists before after,
       tree_iterate tree = before ++ r :: after /\
       GetType r = type_id /\
       Forall (fun x => GetType x <> type_id) before) /\
  (FindByType tree type_id = None <->
     forall r, r ∈ tree_iterate tree -> GetType r <> type_id).
Proof.
  unfold FindByType. split.
  - intros r H. apply find_first in H as (l1 & l2 & E & Hr & Hl1).
    exists l1, l2. split; [exact E |]. split; [apply Z.eqb_eq; exact Hr |].
    eapply Forall_impl; [exact Hl1 |]. intros x Hx. apply Z.eqb_neq. exact Hx.
  - rewrite find_None. split; intros H r Hr.
    + apply Z.eqb_neq. auto.
    + apply Z.eqb_neq. auto.
Qed.

Lemma FindByType_first_exact_witness :
  exists before after,
    tree_iterate seeded_tree
      = before ++ KMemoryRegion4 0x10000 0x1FFFF 0 3 :: after /\
    GetType (KMemoryRegion4 0x10000 0x1FFFF 0 3) = 3 /\
    Forall (fun x => GetType x <> 3) before.
Proof.
  apply (FindByType_first_exact seeded_tree 3). reflexivity.
Defined.

(** X10: [FindByTypeAndAttribute] returns a stored region with exactly the
    type and the attributes asked for, the first one in the tree's order; it
    returns null exactly when there is none, and whenever it finds a region
    [FindByType] finds one for the type as well. *)
Theorem FindByTypeAndAttribute_first_exact (tree : TreeType) (type_id attr : Z) :
  (forall r, FindByTypeAndAttribute tree type_id attr = Some r ->
     (exists before after,
        tree_iterate tree = before ++ r :: after /\
        GetType r = type_id /\ GetAttributes r = attr /\
        Forall (fun x => ~ (GetType x = type_id /\ GetAttributes x = attr))
               before) /\
     exists r0, FindByType tree type_id = Some r0) /\
  (FindByTypeAndAttribute tree type_id attr = None <->
     forall r, r ∈ tree_iterate tree ->
       ~ (GetType r = type_id /\ GetAttributes r = attr)).
Proof.
  unfold FindByTypeAndAttribute. split.
  - intros r H. apply find_first in H as (l1 & l2 & E & Hr & Hl1).
    apply andb_true_iff in Hr as [Hr1 Hr2]. apply Z.eqb_eq in Hr1, Hr2.
    split.
    + exists l1, l2. repeat (split; [assumption |]).
      eapply Forall_impl; [exact Hl1 |]. intros x Hx [H1 H2].
      apply andb_false_iff in Hx as [Hx | Hx]; apply Z.eqb_neq in Hx; auto.
    + destruct (FindByType tree type_id) as [r0 |] eqn:Hf; [eauto |].
      unfold FindByType in Hf. rewrite find_None in Hf.
      assert (r ∈ tree_iterate tree) as Hin.
      { rewrite E. apply elem_of_app. right. apply elem_of_cons. auto. }
      apply Hf in Hin. apply Z.eqb_neq in Hin. contradiction.
  - rewrite find_None. split; intros H r Hr.
    + intros [H1 H2]. specialize (H r Hr).
      apply andb_false_iff in H as [H | H]; apply Z.eqb_neq in H; auto.
    + apply not_true_is_false. rewrite andb_true_iff, !Z.eqb_eq. auto.
Qed.

Lemma FindByTypeAndAttribute_first_exact_witness :
  exists r0, FindByType seeded_tree 2 = Some r0.
Proof.
  destruct (FindByTypeAndAttribute_first_exact seeded_tree 2 0) as [H _].
  apply (H (KMemoryRegion4 0x20000 0x2FFFF 0 2)). reflexivity.
Defined.

(** ** Derived regions *)

Lemma derived_regions_nil (type_id : Z) (l : list KMemoryRegion) :
  derived_regions type_id l = [] <->
  forall r, r ∈ l -> IsDerivedFrom r type_id = false.
Proof.
  unfold derived_regions. split.
  - intros H r Hr. apply not_true_is_false. intros Hd.
    assert (r ∈ filter (fun r => IsDerivedFrom r type_id = true) l) as Hin
      by (apply list_elem_of_filter; auto).
    rewrite H in Hin. apply elem_of_nil in Hin. contradiction.
  - intros H. apply elem_of_nil_inv. intros x Hx.
    apply list_elem_of_filter in Hx as [Hx1 Hx2].
    apply H in Hx2. congruence.
Qed.

(** The value of [GetDerivedRegionExtents] in terms of the derived regions
    of the tree. *)
Lemma GetDerivedRegionExtents_eval (tree : TreeType) (type_id : Z) :
  GetDerivedRegionExtents tree type_id =
    match head (derived_regions type_id (tree_iterate tree)),
          last (derived_regions type_id (tree_iterate tree)) with
    | Some f, Some la => Ok (mkDerivedRegionExtents (Some f) (Some la))
    | _, _ => Fatal
    end.
Proof.
  unfold GetDerivedRegionExtents. simpl. rewrite foldl_extents_step. simpl.
  destruct (head _); destruct (last _); reflexivity.
Qed.

(** X11: the three scans for a derivation agree on emptiness:
    [FindFirstDerived] returns null, [FindLastDerived] returns null and
    [GetDerivedRegionExtents] trips its assertion in exactly the same case,
    when no stored region is derived from [type_id]. *)
Theorem derived_scans_empty_together (tree : TreeType) (type_id : Z) :
  let none_derived :=
    forall r, r ∈ tree_iterate tree -> IsDerivedFrom r type_id = false in
  (FindFirstDerived tree type_id = None <-> none_derived) /\
  (FindLastDerived tree type_id = None <-> none_derived) /\
  (GetDerivedRegionExtents tree type_id = Fatal <-> none_derived).
Proof.
  intros none_derived. subst none_derived.
  rewrite <- derived_regions_nil.
  rewrite FindFirstDerived_head, FindLastDerived_last,
    GetDerivedRegionExtents_eval.
  rewrite head_None, last_None.
  split; [reflexivity |]. split; [reflexivity |].
  destruct (derived_regions type_id (tree_iterate tree)) as [|x l] eqn:E.
  - simpl. split; reflexivity.
  - rewrite last_cons. simpl. destruct (last l); split; discriminate.
Qed.

(** X12: a region found by [FindByType] is derived from the type it was
    found for: [GetDerivedRegionExtents] for that type does not trip its
    assertion, and in an ordered tree the extents it returns enclose the
    region. *)
Theorem FindByType_within_extents (tree : TreeType) (type_id : Z)
    (r : KMemoryRegion) :
  FindByType tree type_id = Some r ->
  IsDerivedFrom r type_id = true /\
  exists f la,
    GetDerivedRegionExtents tree type_id
      = Ok (mkDerivedRegionExtents (Some f) (Some la)) /\
    FindFirstDerived tree type_id = Some f /\
    FindLastDerived tree type_id = Some la /\
    (tree_ok tree ->
       GetAddress f <= GetAddress r /\ GetLastAddress r <= GetLastAddress la).
Proof.
  intros H. unfold FindByType in H.
  apply find_first in H as (l1 & l2 & E & Hr & _). apply Z.eqb_eq in Hr.
  assert (IsDerivedFrom r type_id = true) as Hd.
  { apply IsDerivedFrom_spec. rewrite Hr. apply Z.lor_diag. }
  assert (r ∈ tree_iterate tree) as Hin.
  { rewrite E. apply elem_of_app. right. apply elem_of_cons. auto. }
  split; [exact Hd |].
  rewrite GetDerivedRegionExtents_eval, FindFirstDerived_head,
    FindLastDerived_last.
  assert (r ∈ derived_regions type_id (tree_iterate tree)) as Hrd
    by (apply list_elem_of_filter; auto).
  destruct (head (derived_regions type_id (tree_iterate tree)))
    as [f |] eqn:Hf.
  2: { apply head_None in Hf. rewrite Hf in Hrd.
       apply elem_of_nil in Hrd. contradiction. }
  destruct (last (derived_regions type_id (tree_iterate tree)))
    as [la |] eqn:Hl.
  2: { apply last_None in Hl. rewrite Hl in Hrd.
       apply elem_of_nil in Hrd. contradiction. }
  exists f, la. repeat (split; [reflexivity |]).
  intros [Hwf Hs]. eapply derived_bounds; eauto.
Qed.

Lemma FindByType_within_extents_witness :
  IsDerivedFrom (KMemoryRegion4 0x20000 0x2FFFF 0 2) 2 = true /\
  exists f la,
    GetDerivedRegionExtents seeded_tree 2
      = Ok (mkDerivedRegionExtents (Some f) (Some la)) /\
    FindFirstDerived seeded_tree 2 = Some f /\
    FindLastDerived seeded_tree 2 = Some la /\
    GetAddress f <= 0x20000 /\ 0x2FFFF <= GetLastAddress la.
Proof.
  destruct (FindByType_within_extents seeded_tree 2
              (KMemoryRegion4 0x20000 0x2FFFF 0 2))
    as (Hd & f & la & He & Hf & Hl & Hb).
  - reflexivity.
  - split; [exact Hd |]. exists f, la.
    repeat (split; [assumption |]). apply Hb. exact seeded_tree_ok.
Defined.

(** X13: in an ordered tree of regions with 64-bit bounds, the extents
    returned by [GetDerivedRegionExtents] start no later than they end,
    their [GetSize] is the distance from the first address to the last one
    inclusive, except that it wraps to zero when they span the whole 64-bit
    space; unless they span the whole 64-bit space, no derived region has a
    larger [GetSize] than the extents. *)
Theorem DerivedRegionExtents_size (tree : TreeType) (type_id : Z)
    (e : DerivedRegionExtents) :
  tree_ok tree ->
  Forall region_u64 (tree_iterate tree) ->
  GetDerivedRegionExtents tree type_id = Ok e ->
  exists f la,
    first_region e = Some f /\ last_region e = Some la /\
    GetAddress f <= GetLastAddress la /\
    DerivedRegionExtents_GetSize e =
      Some (if (GetAddress f =? 0) && (GetLastAddress la =? u64_max)
            then 0 else GetLastAddress la - GetAddress f + 1) /\
    (~ (GetAddress f = 0 /\ GetLastAddress la = u64_max) ->
     forall r, r ∈ tree_iterate tree -> IsDerivedFrom r type_id = true ->
       GetSize r <= GetLastAddress la - GetAddress f + 1).
Proof.
  intros [Hwf Hs] Hu He. rewrite GetDerivedRegionExtents_eval in He.
  destruct (head (derived_regions type_id (tree_iterate tree)))
    as [f |] eqn:Hf; [| discriminate].
  destruct (last (derived_regions type_id (tree_iterate tree)))
    as [la |] eqn:Hl; [| discriminate].
  injection He as <-. exists f, la. simpl.
  split; [reflexivity |]. split; [reflexivity |].
  assert (forall x, x ∈ derived_regions type_id (tree_iterate tree) ->
            x ∈ tree_iterate tree /\ IsDerivedFrom x type_id = true) as Hsub.
  { intros x Hx. apply list_elem_of_filter in Hx. tauto. }
  destruct (Hsub f (head_Some_elem_of _ _ Hf)) as [Hfin Hfd].
  destruct (Hsub la (last_Some_elem_of _ _ Hl)) as [Hlin Hld].
  rewrite Forall_forall in Hwf, Hu.
  pose proof (Hwf f Hfin) as Wf. pose proof (Hwf la Hlin) as Wl.
  destruct (Hu f Hfin) as [Uf _]. destruct (Hu la Hlin) as [_ Ul].
  assert (GetAddress f <= GetLastAddress la) as Hle.
  { destruct (derived_bounds type_id (tree_iterate tree) f la la)
      as [H1 _]; auto.
    { apply Forall_forall. exact Hwf. }
    unfold region_wf in *. lia. }
  split; [exact Hle |]. split.
  - unfold DerivedRegionExtents_GetSize, DerivedRegionExtents_GetEndAddress,
      DerivedRegionExtents_GetLastAddress, DerivedRegionExtents_GetAddress.
    simpl. f_equal. apply size_of_bounds; assumption.
  - intros Hnot r Hr Hd.
    destruct (derived_bounds type_id (tree_iterate tree) f la r)
      as [H1 H2]; auto.
    { apply Forall_forall. exact Hwf. }
    pose proof (Hwf r Hr) as Wr. destruct (Hu r Hr) as [Ur1 Ur2].
    unfold GetSize, GetEndAddress. rewrite size_of_bounds by assumption.
    unfold region_wf, is_u64 in *.
    destruct (Z.eqb_spec (GetAddress r) 0);
      destruct (Z.eqb_spec (GetLastAddress r) u64_max); simpl; lia.
Qed.

Lemma seeded_tree_u64 : Forall region_u64 (tree_iterate seeded_tree).
Proof.
  repeat constructor; unfold is_u64, u64_max; simpl; lia.
Qed.

Lemma DerivedRegionExtents_size_witness :
  exists f la,
    first_region
      (mkDerivedRegionExtents (Some (KMemoryRegion4 0x10000 0x1FFFF 0 3))
                              (Some (KMemoryRegion4 0x20000 0x2FFFF 0 2)))
      = Some f /\
    last_region
      (mkDerivedRegionExtents (Some (KMemoryRegion4 0x10000 0x1FFFF 0 3))
                              (Some (KMemoryRegion4 0x20000 0x2FFFF 0 2)))
      = Some la /\
    GetAddress f <= GetLastAddress la /\
    DerivedRegionExtents_GetSize
      (mkDerivedRegionExtents (Some (KMemoryRegion4 0x10000 0x1FFFF 0 3))
                              (Some (KMemoryRegion4 0x20000 0x2FFFF 0 2)))
      = Some (if (GetAddress f =? 0) && (GetLastAddress la =? u64_max)
              then 0 else GetLastAddress la - GetAddress f + 1).
Proof.
  destruct (DerivedRegionExtents_size seeded_tree 2
              (mkDerivedRegionExtents
                 (Some (KMemoryRegion4 0x10000 0x1FFFF 0 3))
                 (Some (KMemoryRegion4 0x20000 0x2FFFF 0 2))))
    as (f & la & H1 & H2 & H3 & H4 & _).
  - exact seeded_tree_ok.
  - exact seeded_tree_u64.
  - vm_compute. reflexivity.
  - exists f, la. auto.
Defined.

(** ** Point lookup, both ways *)

(** X14: in an ordered tree [Find] returns a region exactly when that
    region is stored and its span contains the address, and returns null
    exactly when no stored span contains it; [FindModifiable] returns the
    same region, and [Contains] confirms the address on it. *)
Theorem Find_iff_contained (tree : TreeType) (a : Z) :
  tree_ok tree ->
  (forall r, Find tree a = Some r <-> r ∈ tree_iterate tree /\ in_span r a) /\
  (Find tree a = None <-> forall r, r ∈ tree_iterate tree -> ~ in_span r a) /\
  FindModifiable tree a = Find tree a /\
  (forall r, Find tree a = Some r -> GetEndAddress r <> 0 ->
     Contains r a = Ok true).
Proof.
  intros Hok.
  assert (forall r, Find tree a = Some r ->
            r ∈ tree_iterate tree /\ in_span r a) as Hsound.
  { intros r H. unfold Find in H. apply tree_find_Some in H. exact H. }
  split; [| split; [| split]].
  - intros r. split; [apply Hsound |].
    intros [Hr Ha]. apply Find_in_span; assumption.
  - split.
    + intros Hn r Hr Ha.
      rewrite (Find_in_span tree r a Hok Hr Ha) in Hn. discriminate.
    + intros Hno. destruct (Find tree a) as [r |] eqn:Hf; [| reflexivity].
      destruct (Hsound r eq_refl) as [Hr Ha]. exfalso. eapply Hno; eauto.
  - reflexivity.
  - intros r H Hend. apply Hsound in H as [_ [H1 H2]].
    rewrite Contains_Ok by exact Hend.
    f_equal. apply andb_true_iff. rewrite !Z.leb_le. auto.
Qed.

Lemma Find_iff_contained_witness :
  Find seeded_tree 0x30000 = None /\
  (KMemoryRegion4 0x20000 0x2FFFF 0 2 ∈ tree_iterate seeded_tree /\
   in_span (KMemoryRegion4 0x20000 0x2FFFF 0 2) 0x2FFFF).
Proof.
  split.
  - destruct (Find_iff_contained seeded_tree 0x30000 seeded_tree_ok)
      as (_ & Hnone & _).
    apply Hnone.
    intros r Hr. apply list_elem_of_In in Hr. simpl in Hr.
    destruct Hr as [<- | [<- | [<- | []]]]; unfold in_span; simpl; lia.
  - destruct (Find_iff_contained seeded_tree 0x2FFFF seeded_tree_ok)
      as (Hsome & _).
    apply Hsome. reflexivity.
Defined.

(** ** The allocator, from any state *)

(** X15: from any allocator whose count is within the heap of
    [MaxMemoryRegions] slots, [Allocate] succeeds exactly when the count is
    below [MaxMemoryRegions]; it returns the slot at the old count, stores
    the new region there, raises the count by one, leaves every other slot
    and the heap length as they were, and keeps the count within the heap.
    At [MaxMemoryRegions] it trips the assertion. *)
Theorem Allocate_keeps_allocator_ok (self : KMemoryRegionAllocator)
    (args : KMemoryRegion) :
  allocator_ok self ->
  (num_regions self < MaxMemoryRegions ->
     exists self',
       Allocate self args = Ok (Z.to_nat (num_regions self), self') /\
       allocator_ok self' /\
       num_regions self' = num_regions self + 1 /\
       region_heap self' !! Z.to_nat (num_regions self) = Some args /\
       (forall i, i <> Z.to_nat (num_regions self) ->
          region_heap self' !! i = region_heap self !! i)) /\
  (num_regions self = MaxMemoryRegions -> Allocate self args = Fatal).
Proof.
  intros [Hn Hlen]. unfold MaxMemoryRegions in *. split.
  - intros Hlt. unfold Allocate, MaxMemoryRegions.
    rewrite Allocate_of_Ok by (unfold u64_max; lia).
    eexists. split; [reflexivity |]. simpl. split; [| split; [| split]].
    + unfold allocator_ok, MaxMemoryRegions. simpl.
      split; [lia |]. rewrite length_insert. exact Hlen.
    + reflexivity.
    + apply list_lookup_insert_eq. lia.
    + intros i Hi. apply list_lookup_insert_ne. auto.
  - intros Heq. apply Allocate_of_full. unfold MaxMemoryRegions. lia.
Qed.

Lemma used_allocator_ok : allocator_ok used_allocator.
Proof. split; [vm_compute; split; discriminate | vm_compute; reflexivity]. Qed.

Lemma Allocate_keeps_allocator_ok_witness :
  exists self',
    Allocate used_allocator (KMemoryRegion4 0x30000 0x3FFFF 0 1)
      = Ok (Z.to_nat (num_regions used_allocator), self') /\
    allocator_ok self' /\
    num_regions self' = num_regions used_allocator + 1.
Proof.
  destruct (Allocate_keeps_allocator_ok used_allocator
              (KMemoryRegion4 0x30000 0x3FFFF 0 1) used_allocator_ok)
    as [H _].
  destruct H as (self' & H1 & H2 & H3 & _).
  - vm_compute. reflexivity.
  - exists self'. auto.
Defined.

(** X16: regions handed out by [Allocate] do not alias: two successful
    calls in a row return different slots, and after the second call both
    slots hold the regions constructed in them. *)
Theorem Allocate_twice_no_alias (self self1 self2 : KMemoryRegionAllocator)
    (a b : KMemoryRegion) (s1 s2 : nat) :
  allocator_ok self ->
  Allocate self a = Ok (s1, self1) ->
  Allocate self1 b = Ok (s2, self2) ->
  s2 = S s1 /\
  region_heap self2 !! s1 = Some a /\
  region_heap self2 !! s2 = Some b /\
  num_regions self2 = num_regions self + 2.
Proof.
  intros Hok H1 H2.
  assert (num_regions self < MaxMemoryRegions) as Hlt1.
  { destruct (Z.lt_ge_cases (num_regions self) MaxMemoryRegions); auto.
    unfold Allocate in H1. rewrite Allocate_of_full in H1 by lia.
    discriminate. }
  destruct (Allocate_keeps_allocator_ok self a Hok) as [Hs _].
  destruct (Hs Hlt1) as (self1' & E1 & Hok1 & Hn1 & Hl1 & Ho1).
  rewrite E1 in H1. injection H1 as <- <-.
  assert (num_regions self1' < MaxMemoryRegions) as Hlt2.
  { destruct (Z.lt_ge_cases (num_regions self1') MaxMemoryRegions); auto.
    unfold Allocate in H2. rewrite Allocate_of_full in H2 by lia.
    discriminate. }
  destruct (Allocate_keeps_allocator_ok self1' b Hok1) as [Hs2 _].
  destruct (Hs2 Hlt2) as (self2' & E2 & Hok2 & Hn2 & Hl2 & Ho2).
  rewrite E2 in H2. injection H2 as <- <-.
  destruct Hok as [Hn _].
  assert (Z.to_nat (num_regions self1') = S (Z.to_nat (num_regions self)))
    as Es by lia.
  split; [exact Es |]. split; [| split].
  - rewrite Ho2 by lia. exact Hl1.
  - exact Hl2.
  - lia.
Qed.

Lemma Allocate_twice_no_alias_witness :
  (4 = 4)%nat /\
  region_heap
    (mkKMemoryRegionAllocator
       (<[4%nat := KMemoryRegion4 0x40000 0x4FFFF 0 1]>
          (<[3%nat := KMemoryRegion4 0x30000 0x3FFFF 0 1]>
             (region_heap used_allocator))) 5) !! 3%nat
    = Some (KMemoryRegion4 0x30000 0x3FFFF 0 1).
Proof.
  destruct (Allocate_twice_no_alias used_allocator
              (mkKMemoryRegionAllocator
                 (<[3%nat := KMemoryRegion4 0x30000 0x3FFFF 0 1]>
                    (region_heap used_allocator)) 4)
              (mkKMemoryRegionAllocator
                 (<[4%nat := KMemoryRegion4 0x40000 0x4FFFF 0 1]>
                    (<[3%nat := KMemoryRegion4 0x30000 0x3FFFF 0 1]>
                       (region_heap used_allocator))) 5)
              (KMemoryRegion4 0x30000 0x3FFFF 0 1)
              (KMemoryRegion4 0x40000 0x4FFFF 0 1) 3 4)
    as (H1 & H2 & _).
  - exact used_allocator_ok.
  - vm_compute. reflexivity.
  - vm_compute. reflexivity.
  - split; [exact H1 | exact H2].
Defined.

(** ** Containment in an ordered tree *)

(** X17: in an ordered tree at most one stored region contains a given
    address: two stored regions on which [Contains] answers true for the
    same address are the same region, the one [Find] returns. *)
Theorem Contains_unique_region (tree : TreeType) (r1 r2 : KMemoryRegion)
    (a : Z) :
  tree_ok tree ->
  r1 ∈ tree_iterate tree -> r2 ∈ tree_iterate tree ->
  Contains r1 a = Ok true -> Contains r2 a = Ok true ->
  r1 = r2 /\ Find tree a = Some r1.
Proof.
  intros Hok H1 H2 C1 C2.
  assert (forall r, Contains r a = Ok true -> in_span r a) as Hspan.
  { intros r. unfold Contains.
    destruct (GetEndAddress r =? 0); simpl; [discriminate |].
    intros H. injection H as H. apply andb_true_iff in H as [Ha Hb].
    apply Z.leb_le in Ha, Hb. split; assumption. }
  pose proof (Find_in_span tree r1 a Hok H1 (Hspan r1 C1)) as F1.
  pose proof (Find_in_span tree r2 a Hok H2 (Hspan r2 C2)) as F2.
  split; [congruence | exact F1].
Qed.

Lemma Contains_unique_region_witness :
  KMemoryRegion4 0x10000 0x1FFFF 0 3 = KMemoryRegion4 0x10000 0x1FFFF 0 3 /\
  Find seeded_tree 0x12345 = Some (KMemoryRegion4 0x10000 0x1FFFF 0 3).
Proof.
  apply (Contains_unique_region seeded_tree
           (KMemoryRegion4 0x10000 0x1FFFF 0 3)
           (KMemoryRegion4 0x10000 0x1FFFF 0 3) 0x12345).
  - exact seeded_tree_ok.
  - apply list_elem_of_In. simpl. auto.
  - apply list_elem_of_In. simpl. auto.
  - vm_compute. reflexivity.
  - vm_compute. reflexivity.
Defined.

(** ** Derivation along the type hierarchy *)

Lemma derived_regions_all (l : list KMemoryRegion) :
  derived_regions 0 l = l.
Proof.
  unfold derived_regions. induction l as [|x l IH]; [reflexivity |].
  rewrite filter_cons_True.
  - rewrite IH. reflexivity.
  - apply IsDerivedFrom_spec. apply Z.lor_0_r.
Qed.

(** X18: every region is derived from type [0]: the scans for type [0]
    return the first and the last region of the tree, and
    [GetDerivedRegionExtents 0] trips its assertion only on a tree without
    regions. *)
Theorem derived_from_zero (tree : TreeType) :
  (forall r, IsDerivedFrom r 0 = true) /\
  FindFirstDerived tree 0 = head (tree_iterate tree) /\
  FindLastDerived tree 0 = last (tree_iterate tree) /\
  (GetDerivedRegionExtents tree 0 = Fatal <-> tree_iterate tree = []) /\
  (forall e, GetDerivedRegionExtents tree 0 = Ok e ->
     first_region e = head (tree_iterate tree) /\
     last_region e = last (tree_iterate tree)).
Proof.
  split; [intros r; apply IsDerivedFrom_spec; apply Z.lor_0_r |].
  rewrite FindFirstDerived_head, FindLastDerived_last,
    GetDerivedRegionExtents_eval, derived_regions_all.
  split; [reflexivity |]. split; [reflexivity |].
  destruct (tree_iterate tree) as [|x l]; simpl.
  - split; [split; reflexivity |]. discriminate.
  - rewrite last_cons.
    destruct (last l); simpl.
    + split; [split; discriminate |]. intros e H. injection H as <-. auto.
    + split; [split; discriminate |]. intros e H. injection H as <-. auto.
Qed.

Lemma derived_from_zero_witness :
  first_region
    (mkDerivedRegionExtents (Some (KMemoryRegion4 0x0 0xFFFF 0 1))
                            (Some (KMemoryRegion4 0x20000 0x2FFFF 0 2)))
    = head (tree_iterate seeded_tree) /\
  last_region
    (mkDerivedRegionExtents (Some (KMemoryRegion4 0x0 0xFFFF 0 1))
                            (Some (KMemoryRegion4 0x20000 0x2FFFF 0 2)))
    = last (tree_iterate seeded_tree).
Proof.
  destruct (derived_from_zero seeded_tree) as (_ & _ & _ & _ & H).
  apply H. vm_compute. reflexivity.
Defined.

(** X19: the extents follow the type hierarchy.  If [sub] includes every
    bit of [type_id], each region derived from [sub] is derived from
    [type_id]; whenever [GetDerivedRegionExtents sub] succeeds,
    [GetDerivedRegionExtents type_id] succeeds too, and in an ordered tree
    its extents enclose those of [sub]. *)
Theorem extents_enclose_subtype (tree : TreeType) (type_id sub : Z)
    (e' : DerivedRegionExtents) :
  Z.lor sub type_id = sub ->
  GetDerivedRegionExtents tree sub = Ok e' ->
  (forall r, IsDerivedFrom r sub = true -> IsDerivedFrom r type_id = true) /\
  exists f la f' la',
    GetDerivedRegionExtents tree type_id
      = Ok (mkDerivedRegionExtents (Some f) (Some la)) /\
    first_region e' = Some f' /\ last_region e' = Some la' /\
    (tree_ok tree ->
       GetAddress f <= GetAddress f' /\ GetLastAddress la' <= GetLastAddress la).
Proof.
  intros Hsub He'.
  assert (forall r, IsDerivedFrom r sub = true ->
                    IsDerivedFrom r type_id = true) as Hmono.
  { intros r. rewrite !IsDerivedFrom_spec. intros H.
    rewrite <- H at 1. rewrite <- Z.lor_assoc, Hsub. exact H. }
  split; [exact Hmono |].
  rewrite GetDerivedRegionExtents_eval in He'.
  destruct (head (derived_regions sub (tree_iterate tree)))
    as [f' |] eqn:Hf'; [| discriminate].
  destruct (last (derived_regions sub (tree_iterate tree)))
    as [la' |] eqn:Hl'; [| discriminate].
  injection He' as <-.
  assert (forall x, x ∈ derived_regions sub (tree_iterate tree) ->
            x ∈ tree_iterate tree /\ IsDerivedFrom x type_id = true) as Hin.
  { intros x Hx. apply list_elem_of_filter in Hx as [Hx1 Hx2]. auto. }
  destruct (Hin f' (head_Some_elem_of _ _ Hf')) as [Hf'in Hf'd].
  destruct (Hin la' (last_Some_elem_of _ _ Hl')) as [Hl'in Hl'd].
  assert (f' ∈ derived_regions type_id (tree_iterate tree)) as Hne
    by (apply list_elem_of_filter; auto).
  rewrite GetDerivedRegionExtents_eval.
  destruct (head (derived_regions type_id (tree_iterate tree)))
    as [f |] eqn:Hf.
  2: { apply head_None in Hf. rewrite Hf in Hne.
       apply elem_of_nil in Hne. contradiction. }
  destruct (last (derived_regions type_id (tree_iterate tree)))
    as [la |] eqn:Hl.
  2: { apply last_None in Hl. rewrite Hl in Hne.
       apply elem_of_nil in Hne. contradiction. }
  exists f, la, f', la'. simpl. repeat (split; [reflexivity |]).
  intros [Hwf Hs].
  destruct (derived_bounds type_id (tree_iterate tree) f la f')
    as [H1 _]; auto.
  destruct (derived_bounds type_id (tree_iterate tree) f la la')
    as [_ H2]; auto.
Qed.

Lemma extents_enclose_subtype_witness :
  exists f la f' la',
    GetDerivedRegionExtents seeded_tree 1
      = Ok (mkDerivedRegionExtents (Some f) (Some la)) /\
    Some f' = Some (KMemoryRegion4 0x10000 0x1FFFF 0 3) /\
    Some la' = Some (KMemoryRegion4 0x10000 0x1FFFF 0 3) /\
    GetAddress f <= GetAddress f' /\ GetLastAddress la' <= GetLastAddress la.
Proof.
  destruct (extents_enclose_subtype seeded_tree 1 3
              (mkDerivedRegionExtents
                 (Some (KMemoryRegion4 0x10000 0x1FFFF 0 3))
                 (Some (KMemoryRegion4 0x10000 0x1FFFF 0 3))))
    as (_ & f & la & f' & la' & He & Hf & Hl & Hb).
  - reflexivity.
  - vm_compute. reflexivity.
  - exists f, la, f', la'. simpl in Hf, Hl.
    split; [exact He |]. split; [congruence |]. split; [congruence |].
    apply Hb. exact seeded_tree_ok.
Defined.
